(** * Down-and-out barrier call pricers of [BarriersTensorFlow.ipynb]

    The notebook prices a down-and-out call three ways: a closed formula
    ([analytical_downOut_py], [analytical_downOut_tf_pricer]), a NumPy
    Monte Carlo pricer ([monte_carlo_down_out_py]) and a TensorFlow graph
    ([monte_carlo_down_out_tf]) that also fetches gradients.

    Numbers.  The notebook computes in binary floating point.  This
    development reads every arithmetic operation as the exact operation on
    real numbers ([R] of the Standard Library): rounding, overflow and
    underflow are outside the model.  What is kept of the floating-point
    and Python behaviour is what does not depend on rounding:
    - dividing a Python float by the integer [shape[1] = 0] raises
      [ZeroDivisionError];
    - [sqrt] of a negative number is NaN, and NaN propagates to the result;
    - the mean of an empty array is NaN.

    Overflow is not computed either, but it is delimited: [Fp.no_overflow]
    says that no value of a Monte Carlo run leaves the range of binary64,
    and the statements about an exact outcome assume it.  The TensorFlow
    graphs compute in float32; they are read in exact arithmetic as well,
    so nothing here compares their rounded values with NumPy's. *)

From Stdlib Require Import Reals Lra Lia List Bool Permutation.
Import ListNotations.
Open Scope R_scope.

(** ** NumPy: arrays and the reductions the pricers use *)

Module Np.

(** A two-dimensional array: [shape = (length elements, shape1)].  The
    column count is stored because an array with no rows still has one. *)
Record ndarray : Type := mk_ndarray {
  shape1 : nat;
  elements : list (list R)
}.

Definition shape0 (a : ndarray) : nat := length (elements a).

(** Every row has [shape1] entries, as in every NumPy array. *)
Definition well_shaped (a : ndarray) : Prop :=
  Forall (fun row => length row = shape1 a) (elements a).

(** [np.cumprod] of one row: running products, left to right. *)
Fixpoint cumprod_from (acc : R) (l : list R) : list R :=
  match l with
  | [] => []
  | x :: t => (acc * x) :: cumprod_from (acc * x) t
  end.

Definition cumprod (l : list R) : list R := cumprod_from 1 l.

(** [np.cumprod(a, axis=1)]. *)
Definition cumprod_axis1 (a : list (list R)) : list (list R) :=
  map cumprod a.

(** [np.min] of one row.  The rows reduced here have [shape1 >= 1]
    entries; the value at the empty row is never used. *)
Definition amin (l : list R) : R :=
  match l with
  | [] => 0
  | x :: t => fold_left Rmin t x
  end.

(** [np.min(a, axis=1)]. *)
Definition min_axis1 (a : list (list R)) : list R := map amin a.

(** [a[:, -1]]: the last column. *)
Definition last_column (a : list (list R)) : list R :=
  map (fun row => last row 0) a.

(** Element-wise product of two vectors of one length. *)
Definition multiply (u v : list R) : list R :=
  map (fun p => fst p * snd p) (combine u v).

Definition sum (l : list R) : R := fold_right Rplus 0 l.

(** [np.mean]: [None] is NaN, the mean of an empty array. *)
Definition mean (l : list R) : option R :=
  match l with
  | [] => None
  | _ :: _ => Some (sum l / INR (length l))
  end.

End Np.

(** ** Results of a pricing call *)

Inductive exn : Type := ZeroDivisionError | OverflowError.

Inductive outcome : Type :=
| Price (x : R)
| NotANumber
| Raised (e : exn).

(** The price an outcome carries; 0 where it carries none. *)
Definition price_of (o : outcome) : R :=
  match o with
  | Price x => x
  | NotANumber | Raised _ => 0
  end.

(** ** The standard normal distribution function

    Modelled from the library: [stats.norm.cdf] and
    [tf.distributions.Normal(0.,1.).cdf] are the standard normal cumulative
    distribution function, [Phi x = 1/2 + integral from 0 to x of the
    density exp(-t^2/2)/sqrt(2 pi)]. *)

Definition std_normal_pdf (t : R) : R := exp (- t ^ 2 / 2) / sqrt (2 * PI).

Lemma std_normal_pdf_continuity : continuity std_normal_pdf.
Proof.
  unfold std_normal_pdf.
  assert (Hexp : continuity (fun t => exp (- t ^ 2 / 2))).
  { apply derivable_continuous. unfold derivable. intros x. reg. }
  intros x.
  apply (continuity_pt_mult (fun t => exp (- t ^ 2 / 2)) (fun _ => / sqrt (2 * PI))).
  - apply Hexp.
  - apply continuity_const. intros a b. reflexivity.
Qed.

Definition std_normal_pdf_integrable (a b : R) :
  Riemann_integrable std_normal_pdf a b :=
  match Rle_dec a b with
  | left Hab =>
      continuity_implies_RiemannInt Hab
        (fun x _ => std_normal_pdf_continuity x)
  | right Hab =>
      RiemannInt_P1
        (continuity_implies_RiemannInt
           (Rlt_le b a (Rnot_le_lt a b Hab))
           (fun x _ => std_normal_pdf_continuity x))
  end.

Definition norm_cdf (x : R) : R :=
  1 / 2 + RiemannInt (std_normal_pdf_integrable 0 x).

(** ** The pure Python pricers *)

Module Py.
Import Np.

(** [blackScholes_py]: the plain vanilla call. *)
Definition blackScholes_py
    (S_0 strike time_to_expiry implied_vol riskfree_rate : R) : R :=
  let S := S_0 in
  let K := strike in
  let dt := time_to_expiry in
  let sigma := implied_vol in
  let r := riskfree_rate in
  let Phi := norm_cdf in
  let d_1 := (ln (S_0 / K) + (r + sigma ^ 2 / 2) * dt) / (sigma * sqrt dt) in
  let d_2 := d_1 - sigma * sqrt dt in
  S * Phi d_1 - K * exp (- r * dt) * Phi d_2.

(** [analytical_downOut_py].  [x ** y] on a positive float base is
    [Rpower x y]; [alpha] is computed and never used, as in the source. *)
Definition analytical_downOut_py
    (S_0 strike time_to_expiry implied_vol riskfree_rate barrier : R) : R :=
  let S := S_0 in
  let K := strike in
  let dt := time_to_expiry in
  let sigma := implied_vol in
  let r := riskfree_rate in
  let alpha := 0.5 - r / sigma ^ 2 in
  let B := barrier in
  let Phi := norm_cdf in
  let d_1 := (ln (S_0 / K) + (r + sigma ^ 2 / 2) * dt) / (sigma * sqrt dt) in
  let d_2 := d_1 - sigma * sqrt dt in
  let bs := S * Phi d_1 - K * exp (- r * dt) * Phi d_2 in
  let d_1a :=
    (ln (B ^ 2 / (S * K)) + (r + sigma ^ 2 / 2) * dt) / (sigma * sqrt dt) in
  let d_2a := d_1a - sigma * sqrt dt in
  let reflection :=
    Rpower (S / B) (1 - r / sigma ^ 2)
    * ((B ^ 2 / S) * Phi d_1a - K * exp (- r * dt) * Phi d_2a) in
  bs - reflection.

(** The simulated paths [S_T] of [monte_carlo_down_out_py]: one row per
    row of variates, the running product of the per-step factors. *)
Definition S_T (S r sigma dt : R) (variates : list (list R))
  : list (list R) :=
  map (map (Rmult S))
      (cumprod_axis1
         (map (map (fun z =>
                      exp ((r - sigma ^ 2 / 2) * dt + sigma * sqrt dt * z)))
              variates)).

(** [monte_carlo_down_out_py]. *)
Definition monte_carlo_down_out_py
    (S_0 strike time_to_expiry implied_vol riskfree_rate barrier : R)
    (stdnorm_random_variates : ndarray) : outcome :=
  let S := S_0 in
  let K := strike in
  match shape1 stdnorm_random_variates with
  | O => Raised ZeroDivisionError
  | Datatypes.S _ =>
    let dt := time_to_expiry / INR (shape1 stdnorm_random_variates) in
    let sigma := implied_vol in
    let r := riskfree_rate in
    let B := barrier in
    if Rlt_dec dt 0 then NotANumber
    else
      let B_shift := B * exp (0.5826 * sigma * sqrt dt) in
      let S_T := S_T S r sigma dt (elements stdnorm_random_variates) in
      let non_touch :=
        map (fun lo => if Rgt_dec lo B_shift then 1 else 0)
            (min_axis1 S_T) in
      let call_payout :=
        map (fun s => Rmax (s - K) 0) (last_column S_T) in
      match mean (multiply non_touch call_payout) with
      | None => NotANumber
      | Some npv => Price (exp (- time_to_expiry * r) * npv)
      end
  end.

End Py.

(** ** The TensorFlow pricers

    A TensorFlow pricer builds a graph over placeholders once, and its inner
    function feeds the placeholders and runs the fetch list [target_calc].
    The graph is modelled in two layers: which tensors are fetched (names of
    nodes, with [tf.gradients] producing one gradient node per variable),
    and the value of the [npv] node under a feed. *)

Module Tf.
Import Np.

Inductive placeholder : Type :=
| ph_S | ph_K | ph_dt | ph_T | ph_sigma | ph_r | ph_B | ph_dw.

(** Nodes of a pricer graph that can be fetched: the price node and the
    nodes [tf.gradients] adds, [gradient y x] being d[y]/d[x]. *)
Inductive tensor : Type :=
| npv_node
| gradient (y : tensor) (x : placeholder).

(** [tf.gradients(y, xs)]: one gradient node per entry of [xs], in order. *)
Definition gradients (y : tensor) (xs : list placeholder) : list tensor :=
  map (gradient y) xs.

(** An entry of the list given to [sess.run]: a tensor or a list of them. *)
Inductive fetch : Type :=
| Fetch (t : tensor)
| FetchList (ts : list tensor).


(** [target_calc] of [analytical_downOut_tf_pricer(enable_greeks)]. *)
Definition analytical_downOut_tf_pricer_target_calc (enable_greeks : bool)
  : list fetch :=
  let npv := npv_node in
  let target_calc := [Fetch npv] in
  if enable_greeks then
    let greeks :=
      gradients npv [ph_S; ph_sigma; ph_r; ph_K; ph_dt; ph_B] in
    let dS_2ndOrder :=
      gradients (nth 0 greeks npv)
                [ph_S; ph_sigma; ph_r; ph_K; ph_dt; ph_B] in
    let dsigma_2ndOrder :=
      gradients (nth 1 greeks npv)
                [ph_S; ph_sigma; ph_r; ph_K; ph_dt; ph_B] in
    target_calc
      ++ [FetchList greeks; FetchList dS_2ndOrder; FetchList dsigma_2ndOrder]
  else target_calc.

(** The fetch list of [blackScholes_tf_pricer]. *)
Definition blackScholes_tf_pricer_fetches : list fetch :=
  let npv := npv_node in
  let greeks := gradients npv [ph_S; ph_sigma; ph_r; ph_K; ph_dt] in
  let dS_2ndOrder :=
    gradients (nth 0 greeks npv) [ph_S; ph_sigma; ph_r; ph_K; ph_dt] in
  let dsigma_2ndOrder :=
    gradients (nth 1 greeks npv) [ph_S; ph_sigma; ph_r; ph_K; ph_dt] in
  [Fetch npv; FetchList greeks; FetchList dS_2ndOrder;
   FetchList dsigma_2ndOrder].

(** The value of the [npv] node of [analytical_downOut_tf_pricer] under a
    feed of its six placeholders. *)
Definition analytical_downOut_tf_npv (S K dt sigma r B : R) : R :=
  let Phi := norm_cdf in
  let d_1 := (ln (S / K) + (r + sigma ^ 2 / 2) * dt) / (sigma * sqrt dt) in
  let d_2 := d_1 - sigma * sqrt dt in
  let bs_npv := S * Phi d_1 - K * exp (- r * dt) * Phi d_2 in
  let d_1a :=
    (ln (B ^ 2 / (S * K)) + (r + sigma ^ 2 / 2) * dt) / (sigma * sqrt dt) in
  let d_2a := d_1a - sigma * sqrt dt in
  let reflection :=
    Rpower (S / B) (1 - r / sigma ^ 2)
    * ((B ^ 2 / S) * Phi d_1a - K * exp (- r * dt) * Phi d_2a) in
  bs_npv - reflection.

(** The value of the [npv] node of [blackScholes_tf_pricer] under a feed
    of its five placeholders. *)
Definition blackScholes_tf_npv (S K dt sigma r : R) : R :=
  let Phi := norm_cdf in
  let d_1 := (ln (S / K) + (r + sigma ^ 2 / 2) * dt) / (sigma * sqrt dt) in
  let d_2 := d_1 - sigma * sqrt dt in
  S * Phi d_1 - K * exp (- r * dt) * Phi d_2.






(** The values fed to the placeholders of the Monte Carlo graph. *)
Record feed_dict : Type := mk_feed {
  fd_S : R; fd_K : R; fd_dt : R; fd_T : R;
  fd_sigma : R; fd_r : R; fd_B : R; fd_dw : list (list R)
}.

(** The feed [fd] with another value for the placeholder [T]; the
    placeholder [dt] keeps its value. *)
Definition with_T (fd : feed_dict) (t : R) : feed_dict :=
  {| fd_S := fd_S fd; fd_K := fd_K fd; fd_dt := fd_dt fd; fd_T := t;
     fd_sigma := fd_sigma fd; fd_r := fd_r fd; fd_B := fd_B fd;
     fd_dw := fd_dw fd |}.

(** [tf.reduce_all(row > B_shift)] on one row. *)
Definition reduce_all_gt (B_shift : R) (row : list R) : bool :=
  forallb (fun s => if Rgt_dec s B_shift then true else false) row.

(** [tf.cast(b, tf.float32)]. *)
Definition cast (b : bool) : R := if b then 1 else 0.

(** The value of the [npv] node of [monte_carlo_down_out_tf] under a feed;
    [None] is NaN. *)
Definition monte_carlo_down_out_tf_npv (fd : feed_dict) : option R :=
  let S := fd_S fd in
  let K := fd_K fd in
  let dt := fd_dt fd in
  let T := fd_T fd in
  let sigma := fd_sigma fd in
  let r := fd_r fd in
  let B := fd_B fd in
  let dw := fd_dw fd in
  if Rlt_dec dt 0 then None
  else
    let B_shift := B * exp (0.5826 * sigma * sqrt dt) in
    let S_T :=
      map (map (Rmult S))
          (cumprod_axis1
             (map (map (fun z =>
                    exp ((r - sigma ^ 2 / 2) * dt + sigma * sqrt dt * z)))
                  dw)) in
    let non_touch := map (fun row => cast (reduce_all_gt B_shift row)) S_T in
    let call_payout := map (fun s => Rmax (s - K) 0) (last_column S_T) in
    match mean (multiply non_touch call_payout) with
    | None => None
    | Some m => Some (exp (- r * T) * m)
    end.

(** The value of the [npv] node as a real number; 0 where it is NaN. *)
Definition npv_value (fd : feed_dict) : R :=
  match monte_carlo_down_out_tf_npv fd with
  | Some v => v
  | None => 0
  end.





(** The inner [pricer] of [monte_carlo_down_out_tf]: the time step is
    derived from the variates' column count and fed beside [T]; the price
    is the first fetched value. *)
Definition monte_carlo_down_out_tf
    (S_0 strike time_to_expiry implied_vol riskfree_rate barrier : R)
    (stdnorm_random_variates : ndarray) : outcome :=
  match shape1 stdnorm_random_variates with
  | O => Raised ZeroDivisionError
  | Datatypes.S _ =>
    let timedelta := time_to_expiry / INR (shape1 stdnorm_random_variates) in
    match monte_carlo_down_out_tf_npv
            {| fd_S := S_0; fd_K := strike; fd_r := riskfree_rate;
               fd_sigma := implied_vol; fd_dt := timedelta;
               fd_T := time_to_expiry; fd_B := barrier;
               fd_dw := elements stdnorm_random_variates |} with
    | Some npv => Price npv
    | None => NotANumber
    end
  end.

End Tf.

(** ** The specification's formulas, in its own words *)

Module Spec.

(** MarketInputs of a down-and-out contract. *)
Definition valid_inputs (S K T sigma B : R) : Prop :=
  0 < S /\ 0 < K /\ 0 < T /\ 0 < sigma /\ 0 < B < S.

(** SimulationConfig: at least one path and one step. *)
Definition valid_variates (Z : Np.ndarray) : Prop :=
  Np.well_shaped Z /\ (1 <= Np.shape0 Z)%nat /\ (1 <= Np.shape1 Z)%nat.

(** [bs(s,k,t,v,rr) = s Phi(d1) - k exp(-rr t) Phi(d2)]. *)
Definition bs (s k t v rr : R) : R :=
  let d1 := (ln (s / k) + (rr + v ^ 2 / 2) * t) / (v * sqrt t) in
  let d2 := d1 - v * sqrt t in
  s * norm_cdf d1 - k * exp (- rr * t) * norm_cdf d2.

(** The down-and-out call of the specification: the reflection term has
    the exponent [1 - 2r/sigma^2]. *)
Definition down_and_out_call (S K T sigma r B : R) : R :=
  bs S K T sigma r
  - Rpower (S / B) (1 - 2 * r / sigma ^ 2) * bs (B ^ 2 / S) K T sigma r.

(** [B' = B exp(0.5826 sigma sqrt(Dt))]. *)
Definition adjusted_barrier (B sigma Dt : R) : R :=
  B * exp (0.5826 * sigma * sqrt Dt).

(** One step's log-increment [(r - sigma^2/2) Dt + sigma sqrt(Dt) z]. *)
Definition log_increment (r sigma Dt z : R) : R :=
  (r - sigma ^ 2 / 2) * Dt + sigma * sqrt Dt * z.

(** Column [j] (from 0) of a path: [S exp(sum over k <= j of increments)]. *)
Definition path_entry (S r sigma Dt : R) (row : list R) (j : nat) : R :=
  S * exp (Np.sum (map (log_increment r sigma Dt) (firstn (j + 1) row))).

(** The knock-out indicator: 1 when every grid-point price of the path is
    strictly above [B'], else 0. *)
Definition indicator (B' : R) (path : list R) : R :=
  if Forall_dec (fun s => s > B') (fun s => Rgt_dec s B') path
  then 1 else 0.

(** The terminal payoff [max(S_last - K, 0)]. *)
Definition terminal_payoff (K : R) (path : list R) : R :=
  Rmax (last path 0 - K) 0.

(** [exp(-rT)] times the mean over the paths of indicator times payoff. *)
Definition price (K T r B' : R) (paths : list (list R)) : R :=
  exp (- r * T)
  * (Np.sum (map (fun path => indicator B' path * terminal_payoff K path)
                 paths)
     / INR (length paths)).

End Spec.

(** ** The range of binary64

    The pricers are read in exact arithmetic.  The statements that speak
    of an exact outcome say where no intermediate value leaves the range
    of the floating-point numbers, since an overflow to infinity is what
    exact arithmetic cannot show ([0 * inf] is NaN). *)

Module Fp.
Import Np.

(** The largest finite binary64 number, [(2 - 2^-52) 2^1023]. *)
Definition max_float : R := (2 - / 2 ^ 52) * 2 ^ 1023.

Definition finite (x : R) : Prop := Rabs x <= max_float.



End Fp.

(** * Properties *)


(** Discharges [Spec.valid_variates] on a literal array. *)
Ltac variates_ok :=
  unfold Spec.valid_variates, Np.well_shaped, Np.shape0; cbn;
  repeat split; repeat constructor.

(** ** The standard normal distribution function *)

Lemma std_normal_pdf_pos (t : R) : 0 < std_normal_pdf t.
Proof.
  unfold std_normal_pdf.
  apply Rdiv_lt_0_compat.
  - apply exp_pos.
  - apply sqrt_lt_R0. pose proof PI_RGT_0. lra.
Qed.

Lemma norm_cdf_0 : norm_cdf 0 = 1 / 2.
Proof.
  unfold norm_cdf. rewrite RiemannInt_P9. lra.
Qed.

(** [Phi] is non-decreasing: the density is positive. *)
Lemma norm_cdf_monotone (x y : R) : x <= y -> norm_cdf x <= norm_cdf y.
Proof.
  intros Hxy. unfold norm_cdf.
  pose proof (RiemannInt_P26 (std_normal_pdf_integrable 0 x)
                (std_normal_pdf_integrable x y)
                (std_normal_pdf_integrable 0 y)) as Hsplit.
  assert (Hpos : 0 <= RiemannInt (std_normal_pdf_integrable x y)).
  { pose proof (RiemannInt_P19 (RiemannInt_P14 x y 0)
                  (std_normal_pdf_integrable x y) Hxy) as Hcmp.
    rewrite RiemannInt_P15 in Hcmp.
    rewrite Rmult_0_l in Hcmp. apply Hcmp.
    intros t _. unfold fct_cte. left. apply std_normal_pdf_pos. }
  lra.
Qed.

Lemma norm_cdf_half (x : R) : 0 <= x -> 1 / 2 <= norm_cdf x.
Proof.
  intros Hx. rewrite <- norm_cdf_0. now apply norm_cdf_monotone.
Qed.

(** ** The closed formula *)

Section Analytic.
Import Py.

(** The specification's [bs] is the notebook's [blackScholes_py]. *)
Lemma bs_is_blackScholes_py (s k t v rr : R) :
  Spec.bs s k t v rr = blackScholes_py s k t v rr.
Proof. reflexivity. Qed.

(** X1.  What [analytical_downOut_py] computes: the vanilla call minus the
    reflected call scaled by [(S/B)^(1 - r/sigma^2)]. *)
Lemma analytical_downOut_py_reflection (S K T sigma r B : R) :
  Spec.valid_inputs S K T sigma B ->
  analytical_downOut_py S K T sigma r B
  = blackScholes_py S K T sigma r
    - Rpower (S / B) (1 - r / sigma ^ 2)
      * blackScholes_py (B ^ 2 / S) K T sigma r.
Proof.
  intros (HS & HK & HT & Hsig & HB0 & HBS).
  unfold analytical_downOut_py, blackScholes_py. cbv zeta.
  replace (B ^ 2 / S / K) with (B ^ 2 / (S * K)) by (field; lra).
  reflexivity.
Qed.

Lemma analytical_downOut_py_reflection_witness :
  analytical_downOut_py 100 110 2 (1 / 5) (3 / 100) 90
  = blackScholes_py 100 110 2 (1 / 5) (3 / 100)
    - Rpower (100 / 90) (1 - (3 / 100) / (1 / 5) ^ 2)
      * blackScholes_py (90 ^ 2 / 100) 110 2 (1 / 5) (3 / 100).
Proof.
  apply (analytical_downOut_py_reflection 100 110 2 (1 / 5) (3 / 100) 90).
  unfold Spec.valid_inputs. lra.
Defined.

(** The reflected call at spot 1, strike 1, expiry 1, volatility 1 and
    rate 1 is positive: [Phi(3/2) - exp(-1) Phi(1/2) > 0]. *)
Lemma reflected_call_pos :
  0 < norm_cdf (3 / 2) - exp (- 1) * norm_cdf (1 / 2).
Proof.
  pose proof (norm_cdf_half (1 / 2) ltac:(lra)) as Hhalf.
  pose proof (norm_cdf_monotone (1 / 2) (3 / 2) ltac:(lra)) as Hmono.
  assert (Hexp : exp (- 1) < 1).
  { rewrite <- exp_0. apply exp_increasing. lra. }
  nra.
Qed.

(** The graph of [analytical_downOut_tf_pricer] holds the same formula as
    [analytical_downOut_py]. *)
Lemma analytical_downOut_tf_npv_is_py (S K T sigma r B : R) :
  Tf.analytical_downOut_tf_npv S K T sigma r B
  = analytical_downOut_py S K T sigma r B.
Proof. reflexivity. Qed.

(** C1 (the code departs from the claim).  At S = 4, K = 1, T = 1,
    sigma = 1, r = 1, B = 2 (valid inputs), [analytical_downOut_py] and
    the price node of [analytical_downOut_tf_pricer] return strictly less
    than the claimed formula with the exponent [1 - 2r/sigma^2]: the code
    raises S/B to [1 - r/sigma^2]. *)
Theorem analytical_downOut_py_below_reflection_formula :
  Spec.valid_inputs 4 1 1 1 2
  /\ analytical_downOut_py 4 1 1 1 1 2 < Spec.down_and_out_call 4 1 1 1 1 2
  /\ Tf.analytical_downOut_tf_npv 4 1 1 1 1 2
     < Spec.down_and_out_call 4 1 1 1 1 2.
Proof.
  split; [unfold Spec.valid_inputs; lra|].
  assert (Hlt : analytical_downOut_py 4 1 1 1 1 2
                < Spec.down_and_out_call 4 1 1 1 1 2);
    [|split; [exact Hlt|rewrite analytical_downOut_tf_npv_is_py; exact Hlt]].
  unfold analytical_downOut_py, Spec.down_and_out_call, Spec.bs. cbv zeta.
  replace (2 ^ 2 / (4 * 1)) with 1 by field.
  replace (2 ^ 2 / 4 / 1) with 1 by field.
  replace (2 ^ 2 / 4) with 1 by field.
  replace (1 - 1 / 1 ^ 2) with 0 by field.
  replace (1 - 2 * 1 / 1 ^ 2) with (- (1)) by field.
  replace (4 / 2) with 2 by field.
  rewrite ln_1, sqrt_1.
  replace ((0 + (1 + 1 ^ 2 / 2) * 1) / (1 * 1)) with (3 / 2) by field.
  replace (3 / 2 - 1 * 1) with (1 / 2) by field.
  replace (- (1) * 1) with (- 1) by ring.
  rewrite Rpower_O by lra.
  rewrite Rpower_Ropp, Rpower_1 by lra.
  pose proof reflected_call_pos. lra.
Qed.

End Analytic.

(** ** Lists and reductions *)

Section Reductions.
Import Np.

Lemma multiply_map {A : Type} (f g : A -> R) (l : list A) :
  multiply (map f l) (map g l) = map (fun x => f x * g x) l.
Proof.
  unfold multiply. induction l as [|x l IH]; simpl; [reflexivity|].
  now rewrite IH.
Qed.

Lemma fold_left_Rmin_gt (b : R) (t : list R) (x : R) :
  fold_left Rmin t x > b <-> x > b /\ Forall (fun s => s > b) t.
Proof.
  revert x. induction t as [|y t IH]; intros x; simpl.
  - split; [intros H; split; [exact H|constructor]|tauto].
  - rewrite IH. split.
    + intros [Hmin Ht]. unfold Rmin in Hmin.
      destruct (Rle_dec x y); (split; [lra|constructor; [lra|exact Ht]]).
    + intros [Hx Hall]. inversion Hall; subst. split; [|assumption].
      unfold Rmin. destruct (Rle_dec x y); lra.
Qed.

(** The row minimum is above a level exactly when every entry is. *)
Lemma amin_gt_iff (b : R) (l : list R) :
  l <> [] -> (amin l > b <-> Forall (fun s => s > b) l).
Proof.
  destruct l as [|x t]; [congruence|]. intros _. simpl.
  rewrite fold_left_Rmin_gt. split.
  - intros [Hx Ht]. now constructor.
  - intros H. inversion H; subst. now split.
Qed.

Lemma sum_map_le {A : Type} (f g : A -> R) (l : list A) :
  Forall (fun x => f x <= g x) l -> sum (map f l) <= sum (map g l).
Proof.
  induction 1 as [|x l Hx _ IH]; simpl; lra.
Qed.

Lemma sum_map_nonneg {A : Type} (f : A -> R) (l : list A) :
  Forall (fun x => 0 <= f x) l -> 0 <= sum (map f l).
Proof.
  induction 1 as [|x l Hx _ IH]; simpl; lra.
Qed.

Lemma sum_map_zero {A : Type} (f : A -> R) (l : list A) :
  Forall (fun x => f x = 0) l -> sum (map f l) = 0.
Proof.
  induction 1 as [|x l Hx _ IH]; simpl; lra.
Qed.

Lemma cumprod_from_length (acc : R) (l : list R) :
  length (cumprod_from acc l) = length l.
Proof.
  revert acc. induction l as [|x l IH]; intros acc; simpl; [reflexivity|].
  now rewrite IH.
Qed.

(** Entry [j] of a running product of exponentials is the exponential of
    the running sum of the exponents. *)
Lemma cumprod_from_exp (f : R -> R) (row : list R) :
  forall (acc : R) (j : nat),
    (j < length row)%nat ->
    nth_error (cumprod_from acc (map (fun z => exp (f z)) row)) j
    = Some (acc * exp (sum (map f (firstn (j + 1) row)))).
Proof.
  induction row as [|z row IH]; intros acc j Hj; simpl in Hj; [lia|].
  destruct j as [|j]; simpl.
  - now rewrite Rplus_0_r.
  - rewrite IH by lia. rewrite exp_plus. f_equal. ring.
Qed.

Lemma spec_indicator_cases (b : R) (path : list R) :
  (Forall (fun s => s > b) path /\ Spec.indicator b path = 1)
  \/ (~ Forall (fun s => s > b) path /\ Spec.indicator b path = 0).
Proof.
  unfold Spec.indicator.
  destruct (Forall_dec _ _ path); [left|right]; now split.
Qed.

(** The indicator is 1 exactly when every grid-point price is strictly
    above the level. *)
Lemma spec_indicator_one_iff (b : R) (path : list R) :
  Spec.indicator b path = 1 <-> Forall (fun s => s > b) path.
Proof.
  destruct (spec_indicator_cases b path) as [[H E]|[H E]]; rewrite E.
  - tauto.
  - split; [lra|tauto].
Qed.

(** The NumPy test [np.min(row) > B_shift] is that indicator. *)
Lemma amin_test_indicator (b : R) (path : list R) :
  path <> [] ->
  (if Rgt_dec (amin path) b then 1 else 0) = Spec.indicator b path.
Proof.
  intros Hne. pose proof (amin_gt_iff b path Hne) as Hiff.
  destruct (spec_indicator_cases b path) as [[H E]|[H E]]; rewrite E;
    destruct (Rgt_dec (amin path) b); tauto.
Qed.

(** So is the TensorFlow test [tf.reduce_all(row > B_shift)]. *)
Lemma reduce_all_indicator (b : R) (path : list R) :
  Tf.cast (Tf.reduce_all_gt b path) = Spec.indicator b path.
Proof.
  destruct (spec_indicator_cases b path) as [[H E]|[H E]]; rewrite E.
  - replace (Tf.reduce_all_gt b path) with true; [reflexivity|].
    symmetry. unfold Tf.reduce_all_gt. apply forallb_forall.
    intros s Hs. rewrite Forall_forall in H. specialize (H s Hs).
    destruct (Rgt_dec s b); tauto.
  - replace (Tf.reduce_all_gt b path) with false; [reflexivity|].
    symmetry. apply not_true_is_false. intros Hall. apply H.
    unfold Tf.reduce_all_gt in Hall. rewrite forallb_forall in Hall.
    apply Forall_forall. intros s Hs. specialize (Hall s Hs).
    destruct (Rgt_dec s b); [assumption|discriminate].
Qed.

Lemma indicator_range (b : R) (path : list R) :
  0 <= Spec.indicator b path <= 1.
Proof.
  destruct (spec_indicator_cases b path) as [[_ E]|[_ E]]; rewrite E; lra.
Qed.

Lemma terminal_payoff_nonneg (K : R) (path : list R) :
  0 <= Spec.terminal_payoff K path.
Proof. unfold Spec.terminal_payoff. apply Rmax_r. Qed.

(** Raising the level can only knock more paths out. *)
Lemma indicator_antitone (b1 b2 : R) (path : list R) :
  b1 <= b2 -> Spec.indicator b2 path <= Spec.indicator b1 path.
Proof.
  intros Hb.
  destruct (spec_indicator_cases b2 path) as [[H2 E2]|[H2 E2]]; rewrite E2.
  - assert (H1 : Forall (fun s => s > b1) path).
    { eapply Forall_impl; [|exact H2]. simpl. intros; lra. }
    apply spec_indicator_one_iff in H1. lra.
  - apply indicator_range.
Qed.

End Reductions.

(** ** The Monte Carlo pricers *)

Section MonteCarlo.
Import Np Py.

Lemma S_T_rowwise (S r sigma dt : R) (variates : list (list R)) :
  S_T S r sigma dt variates
  = map (fun row =>
           map (Rmult S)
               (cumprod (map (fun z => exp (Spec.log_increment r sigma dt z))
                             row)))
        variates.
Proof.
  unfold S_T, cumprod_axis1. now rewrite !map_map.
Qed.

Lemma S_T_length (S r sigma dt : R) (variates : list (list R)) :
  length (S_T S r sigma dt variates) = length variates.
Proof. rewrite S_T_rowwise. apply length_map. Qed.

(** With at least one step, no simulated path is empty. *)
Lemma S_T_nonempty (S r sigma dt : R) (Z : ndarray) :
  well_shaped Z -> (1 <= shape1 Z)%nat ->
  Forall (fun path => path <> []) (S_T S r sigma dt (elements Z)).
Proof.
  intros Hwf Hn. rewrite S_T_rowwise. apply Forall_map.
  eapply Forall_impl; [|exact Hwf]. simpl. intros row Hrow Hnil.
  apply (f_equal (@length R)) in Hnil.
  unfold cumprod in Hnil.
  rewrite length_map, cumprod_from_length, length_map in Hnil.
  simpl in Hnil. lia.
Qed.

Lemma time_step_nonneg (T : R) (n : nat) :
  0 <= T -> (1 <= n)%nat -> ~ T / INR n < 0.
Proof.
  intros HT Hn. apply Rle_not_lt.
  apply Rmult_le_pos; [exact HT|]. left. apply Rinv_0_lt_compat.
  apply lt_0_INR. lia.
Qed.

Lemma mean_map_nonempty {A : Type} (f : A -> R) (l : list A) :
  l <> [] -> mean (map f l) = Some (sum (map f l) / INR (length l)).
Proof.
  destruct l as [|x l]; [congruence|]. intros _.
  unfold mean. cbn [map]. now rewrite <- (length_map f (x :: l)).
Qed.

(** The mean taken by [monte_carlo_down_out_py], for paths with at least
    one grid point each. *)
Lemma py_mean_form (K b : R) (paths : list (list R)) :
  Forall (fun path => path <> []) paths ->
  mean (multiply
          (map (fun lo => if Rgt_dec lo b then 1 else 0) (min_axis1 paths))
          (map (fun s => Rmax (s - K) 0) (last_column paths)))
  = mean (map (fun path =>
                 Spec.indicator b path * Spec.terminal_payoff K path)
              paths).
Proof.
  intros Hne. unfold min_axis1, last_column.
  rewrite !map_map, multiply_map. f_equal.
  apply map_ext_Forall. eapply Forall_impl; [|exact Hne].
  simpl. intros path Hpath.
  now rewrite (amin_test_indicator b path Hpath).
Qed.

(** The same for the graph of [monte_carlo_down_out_tf]. *)
Lemma tf_mean_form (K b : R) (paths : list (list R)) :
  mean (multiply
          (map (fun row => Tf.cast (Tf.reduce_all_gt b row)) paths)
          (map (fun s => Rmax (s - K) 0) (last_column paths)))
  = mean (map (fun path =>
                 Spec.indicator b path * Spec.terminal_payoff K path)
              paths).
Proof.
  unfold last_column. rewrite map_map, multiply_map. f_equal.
  apply map_ext. intros path. now rewrite reduce_all_indicator.
Qed.

(** [monte_carlo_down_out_py] on a well-shaped array with at least one
    column and a non-negative expiry: NaN without paths, otherwise the
    discounted mean. *)
Lemma monte_carlo_down_out_py_form (S K T sigma r B : R) (Z : ndarray) :
  0 <= T -> well_shaped Z -> (1 <= shape1 Z)%nat ->
  monte_carlo_down_out_py S K T sigma r B Z
  = match elements Z with
    | [] => NotANumber
    | _ :: _ =>
        Price (Spec.price K T r
                 (Spec.adjusted_barrier B sigma (T / INR (shape1 Z)))
                 (S_T S r sigma (T / INR (shape1 Z)) (elements Z)))
    end.
Proof.
  intros HT Hwf Hn.
  pose proof (S_T_nonempty S r sigma (T / INR (shape1 Z)) Z Hwf Hn) as Hne.
  pose proof (time_step_nonneg T (shape1 Z) HT Hn) as Hdt.
  unfold monte_carlo_down_out_py. cbv zeta.
  destruct (shape1 Z) as [|n] eqn:Hshape; [lia|].
  destruct (Rlt_dec (T / INR (Datatypes.S n)) 0) as [Hneg|_]; [tauto|].
  rewrite (py_mean_form K _ _ Hne).
  fold (Spec.adjusted_barrier B sigma (T / INR (Datatypes.S n))).
  destruct (elements Z) as [|row rows] eqn:Hrows.
  - reflexivity.
  - rewrite mean_map_nonempty
      by (intros Hnil; apply (f_equal (@length (list R))) in Hnil;
          rewrite S_T_length in Hnil; discriminate).
    unfold Spec.price.
    now replace (- T * r) with (- r * T) by ring.
Qed.

Lemma monte_carlo_down_out_tf_form (S K T sigma r B : R) (Z : ndarray) :
  0 <= T -> (1 <= shape1 Z)%nat ->
  Tf.monte_carlo_down_out_tf S K T sigma r B Z
  = match elements Z with
    | [] => NotANumber
    | _ :: _ =>
        Price (Spec.price K T r
                 (Spec.adjusted_barrier B sigma (T / INR (shape1 Z)))
                 (S_T S r sigma (T / INR (shape1 Z)) (elements Z)))
    end.
Proof.
  intros HT Hn.
  pose proof (time_step_nonneg T (shape1 Z) HT Hn) as Hdt.
  unfold Tf.monte_carlo_down_out_tf, Tf.monte_carlo_down_out_tf_npv.
  cbv zeta. cbn [Tf.fd_S Tf.fd_K Tf.fd_dt Tf.fd_T Tf.fd_sigma Tf.fd_r
                 Tf.fd_B Tf.fd_dw].
  destruct (shape1 Z) as [|n] eqn:Hshape; [lia|].
  destruct (Rlt_dec (T / INR (Datatypes.S n)) 0) as [Hneg|_]; [tauto|].
  fold (S_T S r sigma (T / INR (Datatypes.S n)) (elements Z)).
  rewrite tf_mean_form.
  fold (Spec.adjusted_barrier B sigma (T / INR (Datatypes.S n))).
  destruct (elements Z) as [|row rows] eqn:Hrows.
  - reflexivity.
  - rewrite mean_map_nonempty
      by (intros Hnil; apply (f_equal (@length (list R))) in Hnil;
          rewrite S_T_length in Hnil; discriminate).
    reflexivity.
Qed.

(** With at least one path the pricer returns the discounted mean. *)
Lemma monte_carlo_down_out_py_price (S K T sigma r B : R) (Z : ndarray) :
  0 <= T -> Spec.valid_variates Z ->
  monte_carlo_down_out_py S K T sigma r B Z
  = Price (Spec.price K T r
             (Spec.adjusted_barrier B sigma (T / INR (shape1 Z)))
             (S_T S r sigma (T / INR (shape1 Z)) (elements Z))).
Proof.
  intros HT (Hwf & Hm & Hn).
  rewrite monte_carlo_down_out_py_form by assumption.
  unfold shape0 in Hm. destruct (elements Z); [simpl in Hm; lia|reflexivity].
Qed.

Lemma monte_carlo_down_out_tf_price (S K T sigma r B : R) (Z : ndarray) :
  0 <= T -> Spec.valid_variates Z ->
  Tf.monte_carlo_down_out_tf S K T sigma r B Z
  = Price (Spec.price K T r
             (Spec.adjusted_barrier B sigma (T / INR (shape1 Z)))
             (S_T S r sigma (T / INR (shape1 Z)) (elements Z))).
Proof.
  intros HT (Hwf & Hm & Hn).
  rewrite monte_carlo_down_out_tf_form by assumption.
  unfold shape0 in Hm. destruct (elements Z); [simpl in Hm; lia|reflexivity].
Qed.

End MonteCarlo.

(** ** The claims about the Monte Carlo pricers *)

Section Claims.
Import Np Py.

Lemma price_all_knocked_out (K T r b : R) (paths : list (list R)) :
  Forall (fun path => Spec.indicator b path = 0) paths ->
  Spec.price K T r b paths = 0.
Proof.
  intros Hout. unfold Spec.price. rewrite sum_map_zero.
  - unfold Rdiv. ring.
  - eapply Forall_impl; [|exact Hout]. simpl. intros path E. rewrite E. ring.
Qed.

Lemma price_nonneg (K T r b : R) (paths : list (list R)) :
  0 <= Spec.price K T r b paths.
Proof.
  unfold Spec.price. apply Rmult_le_pos; [left; apply exp_pos|].
  apply Rmult_le_pos.
  - apply sum_map_nonneg. apply Forall_forall. intros path _.
    apply Rmult_le_pos;
      [apply indicator_range | apply terminal_payoff_nonneg].
  - destruct (length paths) as [|m] eqn:E.
    + simpl. rewrite Rinv_0. lra.
    + left. apply Rinv_0_lt_compat. apply lt_0_INR. lia.
Qed.

Lemma price_antitone (K T r b1 b2 : R) (paths : list (list R)) :
  b1 <= b2 -> Spec.price K T r b2 paths <= Spec.price K T r b1 paths.
Proof.
  intros Hb. unfold Spec.price.
  apply Rmult_le_compat_l; [left; apply exp_pos|].
  apply Rmult_le_compat_r.
  - destruct (length paths) as [|m] eqn:E.
    + simpl. rewrite Rinv_0. lra.
    + left. apply Rinv_0_lt_compat. apply lt_0_INR. lia.
  - apply sum_map_le. apply Forall_forall. intros path _.
    apply Rmult_le_compat_r; [apply terminal_payoff_nonneg|].
    now apply indicator_antitone.
Qed.

Lemma price_same_knock_outs (K T r b1 b2 : R) (paths : list (list R)) :
  Forall (fun path =>
            Forall (fun s => s > b1) path <-> Forall (fun s => s > b2) path)
         paths ->
  Spec.price K T r b1 paths = Spec.price K T r b2 paths.
Proof.
  intros Hsame. unfold Spec.price. do 3 f_equal.
  apply map_ext_Forall. eapply Forall_impl; [|exact Hsame].
  simpl. intros path Hiff. f_equal.
  destruct (spec_indicator_cases b1 path) as [[H1 E1]|[H1 E1]];
    destruct (spec_indicator_cases b2 path) as [[H2 E2]|[H2 E2]];
    rewrite E1, E2; tauto.
Qed.

Lemma adjusted_barrier_monotone (sigma Dt B1 B2 : R) :
  B1 <= B2 ->
  Spec.adjusted_barrier B1 sigma Dt <= Spec.adjusted_barrier B2 sigma Dt.
Proof.
  intros HB. unfold Spec.adjusted_barrier.
  apply Rmult_le_compat_r; [left; apply exp_pos|exact HB].
Qed.


(** C5.  For a non-negative expiry (in particular every valid input) and
    every m-by-n variate matrix with m, n >= 1, [monte_carlo_down_out_py]
    returns [exp(-rT)] times the mean over the m paths, their sum divided
    by m, of indicator times terminal payoff; the indicator of a path is
    1 exactly when every grid-point price of its row is strictly above
    the adjusted barrier, else 0, and the payoff is [max(S_last - K, 0)]
    on the last column. *)
Theorem monte_carlo_price_is_discounted_mean
    (S K T sigma r B : R) (Z : ndarray) :
  0 <= T -> Spec.valid_variates Z ->
  let Dt := T / INR (shape1 Z) in
  let paths := S_T S r sigma Dt (elements Z) in
  let B' := B * exp (0.5826 * sigma * sqrt Dt) in
  exists indicator : list R -> R,
    (forall path,
        (indicator path = 1 /\ Forall (fun s => s > B') path)
        \/ (indicator path = 0 /\ ~ Forall (fun s => s > B') path))
    /\ monte_carlo_down_out_py S K T sigma r B Z
       = Price (exp (- r * T)
                * (fold_right Rplus 0
                     (map (fun path =>
                             indicator path * Rmax (last path 0 - K) 0)
                          paths)
                   / INR (shape0 Z))).
Proof.
  intros HT HZ Dt paths B'. exists (Spec.indicator B'). split.
  - intros path.
    destruct (spec_indicator_cases B' path) as [[H E]|[H E]];
      [left|right]; now split.
  - rewrite monte_carlo_down_out_py_price by assumption.
    unfold Spec.price, shape0. rewrite S_T_length. reflexivity.
Qed.

Lemma monte_carlo_price_is_discounted_mean_witness :
  let Z := mk_ndarray 2 [[0; 1]; [1; 0]] in
  let paths := S_T 100 (3 / 100) (1 / 5) (2 / INR 2) (elements Z) in
  let B' := 90 * exp (0.5826 * (1 / 5) * sqrt (2 / INR 2)) in
  exists indicator : list R -> R,
    (forall path,
        (indicator path = 1 /\ Forall (fun s => s > B') path)
        \/ (indicator path = 0 /\ ~ Forall (fun s => s > B') path))
    /\ monte_carlo_down_out_py 100 110 2 (1 / 5) (3 / 100) 90 Z
       = Price (exp (- (3 / 100) * 2)
                * (fold_right Rplus 0
                     (map (fun path =>
                             indicator path * Rmax (last path 0 - 110) 0)
                          paths)
                   / INR 2)).
Proof.
  apply (monte_carlo_price_is_discounted_mean
           100 110 2 (1 / 5) (3 / 100) 90 (mk_ndarray 2 [[0; 1]; [1; 0]]));
    [lra | variates_ok].
Defined.

(** C6.  For every well-shaped variate matrix, row i and column j, entry
    (i, j) of the path matrix computed by the running product is
    [S exp(sum over k <= j of ((r - sigma^2/2) Dt + sigma sqrt(Dt) Z_ik))]
    with [Dt = T / n], n the matrix's column count. *)
Theorem path_matrix_entry
    (S T sigma r : R) (Z : ndarray) (i j : nat) :
  well_shaped Z -> (i < shape0 Z)%nat -> (j < shape1 Z)%nat ->
  let Dt := T / INR (shape1 Z) in
  exists row path,
    nth_error (elements Z) i = Some row
    /\ nth_error (S_T S r sigma Dt (elements Z)) i = Some path
    /\ nth_error path j = Some (Spec.path_entry S r sigma Dt row j).
Proof.
  intros Hwf Hi Hj Dt. unfold shape0 in Hi.
  destruct (nth_error (elements Z) i) as [row|] eqn:Hrow;
    [|apply nth_error_None in Hrow; lia].
  assert (Hlen : length row = shape1 Z).
  { unfold well_shaped in Hwf. rewrite Forall_forall in Hwf.
    apply Hwf. eapply nth_error_In; eassumption. }
  exists row. eexists. split; [reflexivity|]. split.
  - rewrite S_T_rowwise, nth_error_map, Hrow. reflexivity.
  - rewrite nth_error_map. unfold cumprod.
    rewrite cumprod_from_exp by lia. cbn [option_map].
    unfold Spec.path_entry. f_equal. ring.
Qed.

Lemma path_matrix_entry_witness :
  exists row path,
    nth_error [[0; 1]; [1; 0]] 1 = Some row
    /\ nth_error (S_T 100 (3 / 100) (1 / 5) (2 / INR 2) [[0; 1]; [1; 0]]) 1
       = Some path
    /\ nth_error path 1
       = Some (Spec.path_entry 100 (3 / 100) (1 / 5) (2 / INR 2) row 1).
Proof.
  apply (path_matrix_entry 100 2 (1 / 5) (3 / 100)
           (mk_ndarray 2 [[0; 1]; [1; 0]]) 1 1);
    [repeat constructor | cbn; lia | cbn; lia].
Defined.

Lemma sum_indicator_payoff_combine (b K : R) (paths : list (list R)) :
  sum (map (fun path => Spec.indicator b path * Spec.terminal_payoff K path)
           paths)
  = fold_right Rplus 0
      (map (fun p => fst p * Rmax (last (snd p) 0 - K) 0)
           (combine (map (Spec.indicator b) paths) paths)).
Proof.
  induction paths as [|path rest IH]; cbn [map combine]; [reflexivity|].
  cbn [sum fold_right fst snd]. f_equal. exact IH.
Qed.

(** C4.  The adjusted barrier [B' = B exp(0.5826 sigma sqrt(Dt))] enters
    the price only through the per-path comparison with the grid-point
    prices: the paths do not depend on the barrier, a path counts exactly
    when all its grid-point prices are strictly above [B'], the terminal
    payoff is [max(S_last - K, 0)] on the raw last-column price and the
    unadjusted strike, and a second barrier that knocks out the same
    paths gives the same price. *)
Theorem barrier_shift_only_in_knock_out_test
    (S K T sigma r B : R) (Z : ndarray) :
  0 <= T -> Spec.valid_variates Z ->
  let Dt := T / INR (shape1 Z) in
  let paths := S_T S r sigma Dt (elements Z) in
  let alive (b : R) (path : list R) :=
    Forall (fun s => s > b * exp (0.5826 * sigma * sqrt Dt)) path in
  (exists non_touch : list R,
      Forall2 (fun path ind =>
                 (alive B path /\ ind = 1) \/ (~ alive B path /\ ind = 0))
              paths non_touch
      /\ monte_carlo_down_out_py S K T sigma r B Z
         = Price (exp (- r * T)
                  * (fold_right Rplus 0
                       (map (fun p => fst p * Rmax (last (snd p) 0 - K) 0)
                            (combine non_touch paths))
                     / INR (length paths))))
  /\ (forall B2 : R,
        Forall (fun path => alive B path <-> alive B2 path) paths ->
        monte_carlo_down_out_py S K T sigma r B2 Z
        = monte_carlo_down_out_py S K T sigma r B Z).
Proof.
  intros HT HZ Dt paths alive. split.
  - exists (map (Spec.indicator (Spec.adjusted_barrier B sigma Dt)) paths).
    split.
    + induction paths as [|path rest IH]; cbn [map]; constructor;
        [|exact IH].
      apply spec_indicator_cases.
    + rewrite monte_carlo_down_out_py_price by assumption.
      unfold Spec.price. rewrite sum_indicator_payoff_combine.
      reflexivity.
  - intros B2 Hsame.
    rewrite !monte_carlo_down_out_py_price by assumption.
    rewrite (price_same_knock_outs K T r
               (Spec.adjusted_barrier B2 sigma (T / INR (shape1 Z)))
               (Spec.adjusted_barrier B sigma (T / INR (shape1 Z)))
               (S_T S r sigma (T / INR (shape1 Z)) (elements Z)));
      [reflexivity|].
    eapply Forall_impl; [|exact Hsame]. simpl. intros path Hiff.
    unfold Spec.adjusted_barrier. unfold alive in Hiff. tauto.
Qed.

Lemma barrier_shift_only_in_knock_out_test_witness :
  (exists non_touch : list R,
      Forall2 (fun path ind =>
                 (Forall (fun s => s > 10 * exp (0.5826 * 1 * sqrt (1 / INR 1)))
                         path /\ ind = 1)
                 \/ (~ Forall
                         (fun s => s > 10 * exp (0.5826 * 1 * sqrt (1 / INR 1)))
                         path /\ ind = 0))
              (S_T 100 (1 / 2) 1 (1 / INR 1) [[0]]) non_touch
      /\ monte_carlo_down_out_py 100 50 1 1 (1 / 2) 10 (mk_ndarray 1 [[0]])
         = Price (exp (- (1 / 2) * 1)
                  * (fold_right Rplus 0
                       (map (fun p => fst p * Rmax (last (snd p) 0 - 50) 0)
                            (combine non_touch
                               (S_T 100 (1 / 2) 1 (1 / INR 1) [[0]])))
                     / INR (length (S_T 100 (1 / 2) 1 (1 / INR 1) [[0]])))))
  /\ monte_carlo_down_out_py 100 50 1 1 (1 / 2) 20 (mk_ndarray 1 [[0]])
     = monte_carlo_down_out_py 100 50 1 1 (1 / 2) 10 (mk_ndarray 1 [[0]]).
Proof.
  destruct (barrier_shift_only_in_knock_out_test
              100 50 1 1 (1 / 2) 10 (mk_ndarray 1 [[0]])
              ltac:(lra) ltac:(variates_ok)) as [Hprice Hsame].
  split; [exact Hprice|]. apply Hsame.
  cbn [shape1 elements]. rewrite S_T_rowwise.
  cbn [map cumprod cumprod_from INR]. unfold Spec.log_increment.
  replace (1 / 1) with 1 by field. rewrite sqrt_1.
  replace ((1 / 2 - 1 ^ 2 / 2) * 1 + 1 * 1 * 0) with 0 by field.
  rewrite exp_0.
  assert (Hshift : exp (0.5826 * 1 * 1) < 3).
  { pose proof exp_le_3.
    assert (exp (0.5826 * 1 * 1) < exp 1) by (apply exp_increasing; lra).
    lra. }
  constructor; [|constructor].
  split; intros _; (constructor; [lra|constructor]).
Defined.

(** In exact arithmetic, with at least one path and one step the pricer
    returns a price; if every path is knocked out the price is 0, and
    with a single path it is that path's discounted indicator times
    payoff.  (In binary64 an overflowed payoff of a knocked-out path
    breaks this, see [knocked_out_path_with_overflow].) *)
Theorem all_knocked_out_and_single_path
    (S K T sigma r B : R) (Z : ndarray) :
  0 <= T -> Spec.valid_variates Z ->
  let Dt := T / INR (shape1 Z) in
  let paths := S_T S r sigma Dt (elements Z) in
  let B' := Spec.adjusted_barrier B sigma Dt in
  (exists p, monte_carlo_down_out_py S K T sigma r B Z = Price p)
  /\ (Forall (fun path => Spec.indicator B' path = 0) paths ->
      monte_carlo_down_out_py S K T sigma r B Z = Price 0)
  /\ (shape0 Z = 1%nat ->
      exists path,
        paths = [path]
        /\ monte_carlo_down_out_py S K T sigma r B Z
           = Price (exp (- r * T)
                    * (Spec.indicator B' path
                       * Spec.terminal_payoff K path))).
Proof.
  intros HT HZ Dt paths B'.
  rewrite monte_carlo_down_out_py_price by assumption.
  fold Dt. fold B'. fold paths. repeat split.
  - eexists. reflexivity.
  - intros Hout. now rewrite price_all_knocked_out.
  - intros Hone.
    assert (Hlen : length paths = 1%nat)
      by (unfold paths; rewrite S_T_length; exact Hone).
    destruct paths as [|path [|path' rest]]; try discriminate.
    exists path. split; [reflexivity|].
    unfold Spec.price. cbn. f_equal. f_equal. field.
Qed.

Lemma all_knocked_out_and_single_path_witness :
  exists p,
    monte_carlo_down_out_py 100 110 2 (1 / 5) (3 / 100) 90
      (mk_ndarray 1 [[0]]) = Price p.
Proof.
  apply (all_knocked_out_and_single_path
           100 110 2 (1 / 5) (3 / 100) 90 (mk_ndarray 1 [[0]]));
    [lra | variates_ok].
Defined.

(** C9.  For fixed other inputs and a fixed variate matrix the Monte
    Carlo price is non-increasing in the barrier: [B1 <= B2] gives
    [price(B2) <= price(B1)]. *)
Theorem price_non_increasing_in_barrier
    (S K T sigma r B1 B2 : R) (Z : ndarray) :
  0 <= T -> Spec.valid_variates Z -> B1 <= B2 ->
  exists p1 p2,
    monte_carlo_down_out_py S K T sigma r B1 Z = Price p1
    /\ monte_carlo_down_out_py S K T sigma r B2 Z = Price p2
    /\ p2 <= p1.
Proof.
  intros HT HZ HB.
  rewrite !monte_carlo_down_out_py_price by assumption.
  do 2 eexists. repeat split.
  apply price_antitone. now apply adjusted_barrier_monotone.
Qed.

Lemma price_non_increasing_in_barrier_witness :
  exists p1 p2,
    monte_carlo_down_out_py 100 110 2 (1 / 5) (3 / 100) 90
      (mk_ndarray 2 [[0; 1]; [1; 0]]) = Price p1
    /\ monte_carlo_down_out_py 100 110 2 (1 / 5) (3 / 100) 95
         (mk_ndarray 2 [[0; 1]; [1; 0]]) = Price p2
    /\ p2 <= p1.
Proof.
  apply (price_non_increasing_in_barrier
           100 110 2 (1 / 5) (3 / 100) 90 95
           (mk_ndarray 2 [[0; 1]; [1; 0]]));
    [lra | variates_ok | lra].
Defined.

(** C10.  For [T >= 0], any real rate and every variate matrix with at
    least one path and one step, both pricers return a price and it is
    non-negative. *)
Theorem price_nonnegative (S K T sigma r B : R) (Z : ndarray) :
  0 <= T -> Spec.valid_variates Z ->
  exists p,
    monte_carlo_down_out_py S K T sigma r B Z = Price p
    /\ Tf.monte_carlo_down_out_tf S K T sigma r B Z = Price p
    /\ 0 <= p.
Proof.
  intros HT HZ.
  rewrite monte_carlo_down_out_py_price, monte_carlo_down_out_tf_price
    by assumption.
  eexists. repeat split. apply price_nonneg.
Qed.

Lemma price_nonnegative_witness :
  exists p,
    monte_carlo_down_out_py 100 110 0 (1 / 5) (- (1)) 90
      (mk_ndarray 2 [[0; 1]; [1; 0]]) = Price p
    /\ Tf.monte_carlo_down_out_tf 100 110 0 (1 / 5) (- (1)) 90
         (mk_ndarray 2 [[0; 1]; [1; 0]]) = Price p
    /\ 0 <= p.
Proof.
  apply (price_nonnegative 100 110 0 (1 / 5) (- (1)) 90
           (mk_ndarray 2 [[0; 1]; [1; 0]]));
    [lra | variates_ok].
Defined.





Lemma max_float_large : 1024 <= Fp.max_float.
Proof.
  unfold Fp.max_float.
  assert (H52 : 1 <= 2 ^ 52) by (apply pow_R1_Rle; lra).
  assert (Hinv : / 2 ^ 52 <= 1).
  { rewrite <- Rinv_1. apply Rinv_le_contravar; lra. }
  assert (Hpow : 2 ^ 10 <= 2 ^ 1023) by (apply Rle_pow; [lra|lia]).
  assert (H10 : 2 ^ 10 = 1024) by (simpl; lra).
  nra.
Qed.

Lemma finite_small (x : R) : - 1024 <= x <= 1024 -> Fp.finite x.
Proof.
  intros Hx. unfold Fp.finite. pose proof max_float_large.
  apply Rabs_le. lra.
Qed.










End Claims.

(** ** What the TensorFlow pricers fetch *)

Section Sensitivities.
Import Tf.






End Sensitivities.

(** ** Further properties of the pricers *)

Section Further.
Import Np Py.

Lemma sum_permutation (u v : list R) : Permutation u v -> sum u = sum v.
Proof.
  induction 1 as [|x u v _ IH|x y u|u v w _ IH1 _ IH2]; simpl; lra.
Qed.

(** In exact arithmetic the graph and the NumPy pricer compute the same
    function; the graph's float32 rounding is outside the model. *)
Lemma tf_pricer_agrees_with_py_all (S K T sigma r B : R) (Z : ndarray) :
  well_shaped Z ->
  Tf.monte_carlo_down_out_tf S K T sigma r B Z
  = monte_carlo_down_out_py S K T sigma r B Z.
Proof.
  intros Hwf.
  destruct (shape1 Z) as [|n] eqn:Hshape.
  - unfold Tf.monte_carlo_down_out_tf, monte_carlo_down_out_py.
    cbv zeta. now rewrite Hshape.
  - destruct (Rlt_dec (T / INR (shape1 Z)) 0) as [Hneg|Hpos].
    + unfold Tf.monte_carlo_down_out_tf, Tf.monte_carlo_down_out_tf_npv,
        monte_carlo_down_out_py.
      cbv zeta. cbn [Tf.fd_dt]. rewrite Hshape in *.
      destruct (Rlt_dec (T / INR (Datatypes.S n)) 0); tauto.
    + assert (HT : 0 <= T).
      { apply Rnot_lt_le in Hpos.
        assert (Hn : 0 < INR (shape1 Z)) by (apply lt_0_INR; lia).
        replace T with (T / INR (shape1 Z) * INR (shape1 Z)) by (field; lra).
        apply Rmult_le_pos; lra. }
      rewrite monte_carlo_down_out_tf_form, monte_carlo_down_out_py_form
        by (try assumption; lia).
      reflexivity.
Qed.


(** X3.  Reordering the paths of the variate matrix does not change the
    outcome of the pricer. *)
Theorem price_path_order_independent
    (S K T sigma r B : R) (Z Z' : ndarray) :
  shape1 Z = shape1 Z' -> Permutation (elements Z) (elements Z') ->
  monte_carlo_down_out_py S K T sigma r B Z
  = monte_carlo_down_out_py S K T sigma r B Z'.
Proof.
  intros Hcols Hperm.
  unfold monte_carlo_down_out_py. cbv zeta. rewrite <- Hcols.
  destruct (shape1 Z) as [|n]; [reflexivity|].
  destruct (Rlt_dec (T / INR (Datatypes.S n)) 0); [reflexivity|].
  unfold min_axis1, last_column. rewrite !map_map, !multiply_map.
  rewrite !S_T_rowwise, !map_map.
  set (h := fun row : list R => _).
  pose proof (Permutation_map h Hperm) as Hmap.
  pose proof (Permutation_length Hmap) as Hlen.
  pose proof (sum_permutation _ _ Hmap) as Hsum.
  unfold mean.
  destruct (map h (elements Z)) as [|x u];
    destruct (map h (elements Z')) as [|y v]; try discriminate;
    [reflexivity|].
  now rewrite Hsum, Hlen.
Qed.

Lemma price_path_order_independent_witness :
  monte_carlo_down_out_py 100 110 2 (1 / 5) (3 / 100) 90
    (mk_ndarray 2 [[0; 1]; [1; 0]])
  = monte_carlo_down_out_py 100 110 2 (1 / 5) (3 / 100) 90
      (mk_ndarray 2 [[1; 0]; [0; 1]]).
Proof.
  apply (price_path_order_independent 100 110 2 (1 / 5) (3 / 100) 90
           (mk_ndarray 2 [[0; 1]; [1; 0]]) (mk_ndarray 2 [[1; 0]; [0; 1]]));
    [reflexivity | apply perm_swap].
Defined.

Lemma cumprod_from_pos (acc : R) (l : list R) :
  0 < acc -> Forall (fun x => 0 < x) l ->
  Forall (fun x => 0 < x) (cumprod_from acc l).
Proof.
  intros Hacc Hl. revert acc Hacc.
  induction Hl as [|x l Hx _ IH]; intros acc Hacc; simpl; constructor.
  - now apply Rmult_lt_0_compat.
  - apply IH. now apply Rmult_lt_0_compat.
Qed.

(** With a positive spot every simulated price is positive. *)
Lemma S_T_pos (S r sigma dt : R) (variates : list (list R)) :
  0 < S ->
  Forall (Forall (fun s => 0 < s)) (S_T S r sigma dt variates).
Proof.
  intros HS. rewrite S_T_rowwise. apply Forall_map.
  apply Forall_forall. intros row _. apply Forall_map.
  eapply Forall_impl;
    [|apply (cumprod_from_pos 1
               (map (fun z => exp (Spec.log_increment r sigma dt z)) row))].
  - simpl. intros x Hx. now apply Rmult_lt_0_compat.
  - lra.
  - apply Forall_map. apply Forall_forall. intros z _. apply exp_pos.
Qed.



End Further.

(** ** The gradient with respect to the placeholder [T] *)

Section Theta.
Import Np Py.

Lemma derivable_pt_lim_scaled_exp (c a x : R) :
  derivable_pt_lim (fun t => c * exp (a * t)) x (c * (exp (a * x) * (a * 1))).
Proof.
  apply (derivable_pt_lim_scal (comp exp (mult_real_fct a id)) c x).
  apply (derivable_pt_lim_comp (mult_real_fct a id) exp x).
  - apply derivable_pt_lim_scal. apply derivable_pt_lim_id.
  - apply derivable_pt_lim_exp.
Qed.

(** A derivative at a point depends on the function near the point only. *)
Lemma derivable_pt_lim_local (f g : R -> R) (x l d : R) :
  0 < d -> (forall t, Rabs (t - x) < d -> f t = g t) ->
  derivable_pt_lim g x l -> derivable_pt_lim f x l.
Proof.
  intros Hd Heq Hg eps Heps. destruct (Hg eps Heps) as [delta Hdelta].
  assert (Hmin : 0 < Rmin delta d)
    by (apply Rmin_pos; [apply cond_pos|exact Hd]).
  exists (mkposreal _ Hmin). intros h Hh Hlt. simpl in Hlt.
  rewrite (Heq (x + h)), (Heq x).
  - apply Hdelta; [exact Hh|].
    eapply Rlt_le_trans; [exact Hlt|apply Rmin_l].
  - replace (x - x) with 0 by ring. rewrite Rabs_R0. exact Hd.
  - replace (x + h - x) with h by ring.
    eapply Rlt_le_trans; [exact Hlt|apply Rmin_r].
Qed.

Lemma npv_derivative_in_T (fd : Tf.feed_dict) (v : R) :
  Tf.monte_carlo_down_out_tf_npv fd = Some v ->
  derivable_pt_lim (fun t => Tf.npv_value (Tf.with_T fd t)) (Tf.fd_T fd)
                   (- Tf.fd_r fd * v).
Proof.
  intros Hv. unfold Tf.monte_carlo_down_out_tf_npv in Hv. cbv zeta in Hv.
  destruct (Rlt_dec (Tf.fd_dt fd) 0) as [|Hdt]; [discriminate|].
  match type of Hv with
  | match ?mean_term with _ => _ end = _ =>
      destruct mean_term as [m|] eqn:Hmean; [|discriminate]
  end.
  injection Hv as Hv.
  assert (Hform : forall t,
             Tf.npv_value (Tf.with_T fd t) = m * exp (- Tf.fd_r fd * t)).
  { intros t.
    unfold Tf.npv_value, Tf.monte_carlo_down_out_tf_npv, Tf.with_T.
    cbv zeta.
    cbn [Tf.fd_S Tf.fd_K Tf.fd_dt Tf.fd_T Tf.fd_sigma Tf.fd_r Tf.fd_B
         Tf.fd_dw].
    destruct (Rlt_dec (Tf.fd_dt fd) 0); [tauto|].
    rewrite Hmean. ring. }
  apply (derivable_pt_lim_local _
           (fun t => m * exp (- Tf.fd_r fd * t)) _ _ 1);
    [lra | intros t _; apply Hform |].
  replace (- Tf.fd_r fd * v)
    with (m * (exp (- Tf.fd_r fd * Tf.fd_T fd) * (- Tf.fd_r fd * 1)))
    by (subst v; ring).
  apply derivable_pt_lim_scaled_exp.
Qed.

(** X5.  In the graph of [monte_carlo_down_out_tf] the placeholder [T]
    occurs in the discount factor only (the time step is the placeholder
    [dt]), so wherever the price node has a value [v], its partial
    derivative with respect to [T] is [- r v]. *)
Theorem npv_partial_T (fd : Tf.feed_dict) (v : R) :
  Tf.monte_carlo_down_out_tf_npv fd = Some v ->
  derivable_pt_lim (fun t => Tf.npv_value (Tf.with_T fd t)) (Tf.fd_T fd)
                   (- Tf.fd_r fd * v).
Proof. exact (npv_derivative_in_T fd v). Qed.

Lemma exp_minus_1_lower : 1 / 3 <= exp (- 1).
Proof.
  pose proof exp_le_3 as H3. pose proof (exp_pos 1) as H1.
  pose proof (exp_pos (- 1)) as Hm.
  assert (Hprod : exp (- 1) * exp 1 = 1).
  { rewrite <- exp_plus. replace (- 1 + 1) with 0 by ring. apply exp_0. }
  nra.
Qed.

(** One path of one step with variate 0, spot 2, strike 1/10, volatility
    1, rate 0 and barrier 1/100: for an expiry [t] between 0 and 2 the
    path stays above the shifted barrier and ends in the money, and the
    price is [2 exp(-t/2) - 1/10]. *)
Lemma one_path_price (t : R) :
  0 < t < 2 ->
  Tf.monte_carlo_down_out_tf 2 (1 / 10) t 1 0 (1 / 100) (mk_ndarray 1 [[0]])
  = Price (2 * exp (- (1 / 2) * t) - 1 / 10).
Proof.
  intros Ht.
  rewrite monte_carlo_down_out_tf_price; [|lra|variates_ok].
  f_equal. unfold Spec.price. cbn [shape1 elements].
  rewrite S_T_rowwise.
  cbn [map cumprod cumprod_from sum fold_right length INR].
  unfold Spec.log_increment, Spec.terminal_payoff, Spec.adjusted_barrier.
  cbn [last].
  replace (t / 1) with t by field.
  replace ((0 - 1 ^ 2 / 2) * t + 1 * sqrt t * 0) with (- (1 / 2) * t) by field.
  replace (- 0 * t) with 0 by ring. rewrite exp_0.
  assert (Hpath : 2 / 3 < 2 * (1 * exp (- (1 / 2) * t))).
  { pose proof exp_minus_1_lower as Hlow.
    assert (exp (- 1) < exp (- (1 / 2) * t)) by (apply exp_increasing; lra).
    lra. }
  assert (Hsqrt : sqrt t <= 2).
  { replace 2 with (sqrt (2 * 2)) by (apply sqrt_square; lra).
    apply sqrt_le_1_alt. lra. }
  assert (Hbar : 1 / 100 * exp (0.5826 * 1 * sqrt t) < 9 / 100).
  { assert (exp (0.5826 * 1 * sqrt t) < exp (1 + 1))
      by (apply exp_increasing; lra).
    rewrite exp_plus in H.
    pose proof exp_le_3 as H3. pose proof (exp_pos 1) as H1. nra. }
  assert (Hind : Spec.indicator (1 / 100 * exp (0.5826 * 1 * sqrt t))
                   [2 * (1 * exp (- (1 / 2) * t))] = 1).
  { apply spec_indicator_one_iff. constructor; [lra|constructor]. }
  rewrite Hind, Rmax_left by lra. field.
Qed.

(** At that input and expiry 1 the price falls with the expiry at the
    rate [exp(-1/2)], while the partial derivative of the price node with
    respect to the placeholder [T], the fifth greek, is 0: the fetched
    gradient is not the sensitivity of the price to the expiry. *)
Theorem expiry_sensitivity_is_not_T_gradient :
  let Z := mk_ndarray 1 [[0]] in
  let fd := {| Tf.fd_S := 2; Tf.fd_K := 1 / 10; Tf.fd_dt := 1 / INR 1;
               Tf.fd_T := 1; Tf.fd_sigma := 1; Tf.fd_r := 0;
               Tf.fd_B := 1 / 100; Tf.fd_dw := [[0]] |} in
  derivable_pt_lim
    (fun t => price_of (Tf.monte_carlo_down_out_tf 2 (1 / 10) t 1 0 (1 / 100) Z))
    1 (- exp (- (1 / 2)))
  /\ derivable_pt_lim (fun t => Tf.npv_value (Tf.with_T fd t)) 1 0
  /\ - exp (- (1 / 2)) < 0.
Proof.
  intros Z fd. repeat split.
  - apply (derivable_pt_lim_local _
             (fun t => 2 * exp (- (1 / 2) * t) - 1 / 10) _ _ (1 / 2));
      [lra| |].
    + intros t Hnear. unfold Z. rewrite one_path_price; [reflexivity|].
      apply Rabs_def2 in Hnear. lra.
    + replace (- exp (- (1 / 2)))
        with (2 * (exp (- (1 / 2) * 1) * (- (1 / 2) * 1)) - 0)
        by (replace (- (1 / 2) * 1) with (- (1 / 2)) by ring; field).
      apply (derivable_pt_lim_minus
               (fun t => 2 * exp (- (1 / 2) * t)) (fct_cte (1 / 10))).
      * apply derivable_pt_lim_scaled_exp.
      * apply derivable_pt_lim_const.
  - pose proof (one_path_price 1 ltac:(lra)) as Hprice.
    unfold Tf.monte_carlo_down_out_tf in Hprice. cbn [shape1 elements] in Hprice.
    fold fd in Hprice.
    destruct (Tf.monte_carlo_down_out_tf_npv fd) as [v|] eqn:Hv;
      [|discriminate].
    replace 0 with (- Tf.fd_r fd * v) by (cbn; ring).
    apply (npv_derivative_in_T fd v Hv).
  - pose proof (exp_pos (- (1 / 2))). lra.
Qed.

Lemma npv_partial_T_witness :
  derivable_pt_lim
    (fun t =>
       Tf.npv_value
         (Tf.with_T
            {| Tf.fd_S := 2; Tf.fd_K := 1 / 10; Tf.fd_dt := 1 / INR 1;
               Tf.fd_T := 1; Tf.fd_sigma := 1; Tf.fd_r := 0;
               Tf.fd_B := 1 / 100; Tf.fd_dw := [[0]] |} t))
    1 (- 0 * (2 * exp (- (1 / 2) * 1) - 1 / 10)).
Proof.
  apply (npv_partial_T
           {| Tf.fd_S := 2; Tf.fd_K := 1 / 10; Tf.fd_dt := 1 / INR 1;
              Tf.fd_T := 1; Tf.fd_sigma := 1; Tf.fd_r := 0;
              Tf.fd_B := 1 / 100; Tf.fd_dw := [[0]] |}
           (2 * exp (- (1 / 2) * 1) - 1 / 10)).
  pose proof (one_path_price 1 ltac:(lra)) as Hprice.
  unfold Tf.monte_carlo_down_out_tf in Hprice.
  cbn [shape1 elements] in Hprice.
  destruct (Tf.monte_carlo_down_out_tf_npv _) as [v|]; [|discriminate].
  now injection Hprice as ->.
Defined.

End Theta.

(** ** The closed formulas: scaling and the barrier at the spot *)

Section AnalyticFurther.
Import Py.

(** X7.  The vanilla call is homogeneous of degree 1 in spot and strike:
    pricing in another currency unit scales the price, in
    [blackScholes_py] and in the price node of [blackScholes_tf_pricer]. *)
Theorem blackScholes_py_homogeneous (c S K T sigma r : R) :
  0 < c -> 0 < S -> 0 < K -> 0 < T -> 0 < sigma ->
  blackScholes_py (c * S) (c * K) T sigma r
  = c * blackScholes_py S K T sigma r
  /\ Tf.blackScholes_tf_npv (c * S) (c * K) T sigma r
     = c * Tf.blackScholes_tf_npv S K T sigma r.
Proof.
  intros Hc HS HK _ _.
  assert (E : blackScholes_py (c * S) (c * K) T sigma r
              = c * blackScholes_py S K T sigma r).
  { unfold blackScholes_py. cbv zeta.
    replace (c * S / (c * K)) with (S / K) by (field; lra). ring. }
  split; exact E.
Qed.

Lemma blackScholes_py_homogeneous_witness :
  blackScholes_py (2 * 100) (2 * 110) 2 (1 / 5) (3 / 100)
  = 2 * blackScholes_py 100 110 2 (1 / 5) (3 / 100).
Proof.
  apply (blackScholes_py_homogeneous 2 100 110 2 (1 / 5) (3 / 100)); lra.
Defined.

(** X8.  The down-and-out formula is homogeneous of degree 1 in spot,
    strike and barrier, in [analytical_downOut_py] and in the price node
    of [analytical_downOut_tf_pricer]. *)
Theorem analytical_downOut_py_homogeneous (c S K T sigma r B : R) :
  0 < c -> 0 < S -> 0 < K -> 0 < T -> 0 < sigma -> 0 < B ->
  analytical_downOut_py (c * S) (c * K) T sigma r (c * B)
  = c * analytical_downOut_py S K T sigma r B
  /\ Tf.analytical_downOut_tf_npv (c * S) (c * K) T sigma r (c * B)
     = c * Tf.analytical_downOut_tf_npv S K T sigma r B.
Proof.
  intros Hc HS HK _ _ HB.
  assert (E : analytical_downOut_py (c * S) (c * K) T sigma r (c * B)
              = c * analytical_downOut_py S K T sigma r B).
  { unfold analytical_downOut_py. cbv zeta.
    replace (c * S / (c * K)) with (S / K) by (field; lra).
    replace ((c * B) ^ 2 / (c * S * (c * K))) with (B ^ 2 / (S * K))
      by (field; lra).
    replace (c * S / (c * B)) with (S / B) by (field; lra).
    replace ((c * B) ^ 2 / (c * S)) with (c * (B ^ 2 / S)) by (field; lra).
    ring. }
  split; exact E.
Qed.

Lemma analytical_downOut_py_homogeneous_witness :
  analytical_downOut_py (2 * 100) (2 * 110) 2 (1 / 5) (3 / 100) (2 * 90)
  = 2 * analytical_downOut_py 100 110 2 (1 / 5) (3 / 100) 90.
Proof.
  apply (analytical_downOut_py_homogeneous 2 100 110 2 (1 / 5) (3 / 100) 90);
    lra.
Defined.

(** X9.  With the barrier at the spot the formula gives 0: the reflected
    call is the call itself and its prefactor is 1, whatever the
    exponent. *)
Theorem analytical_downOut_py_barrier_at_spot (S K T sigma r : R) :
  0 < S -> 0 < K -> 0 < T -> 0 < sigma ->
  analytical_downOut_py S K T sigma r S = 0
  /\ Tf.analytical_downOut_tf_npv S K T sigma r S = 0.
Proof.
  intros HS HK _ _.
  assert (E : analytical_downOut_py S K T sigma r S = 0).
  { unfold analytical_downOut_py. cbv zeta.
    replace (S ^ 2 / (S * K)) with (S / K) by (field; lra).
    replace (S ^ 2 / S) with S by (field; lra).
    replace (S / S) with 1 by (field; lra).
    unfold Rpower. rewrite ln_1, Rmult_0_r, exp_0. ring. }
  split; exact E.
Qed.

Lemma analytical_downOut_py_barrier_at_spot_witness :
  analytical_downOut_py 100 110 2 (1 / 5) (3 / 100) 100 = 0.
Proof.
  apply (analytical_downOut_py_barrier_at_spot 100 110 2 (1 / 5) (3 / 100));
    lra.
Defined.

(** X10.  At a zero rate the two exponents [1 - r/sigma^2] and
    [1 - 2r/sigma^2] are both 1, and [analytical_downOut_py] is the
    reflection formula [bs(S) - (S/B) bs(B^2/S)]. *)
Theorem analytical_downOut_py_zero_rate (S K T sigma B : R) :
  Spec.valid_inputs S K T sigma B ->
  analytical_downOut_py S K T sigma 0 B
  = blackScholes_py S K T sigma 0
    - S / B * blackScholes_py (B ^ 2 / S) K T sigma 0
  /\ analytical_downOut_py S K T sigma 0 B
     = Spec.down_and_out_call S K T sigma 0 B.
Proof.
  intros (HS & HK & HT & Hsig & HB0 & HBS).
  assert (Hpow : forall e, e = 1 -> Rpower (S / B) e = S / B).
  { intros e ->. apply Rpower_1. apply Rdiv_lt_0_compat; lra. }
  unfold analytical_downOut_py, Spec.down_and_out_call, Spec.bs,
    blackScholes_py.
  cbv zeta.
  replace (B ^ 2 / S / K) with (B ^ 2 / (S * K)) by (field; lra).
  rewrite (Hpow (1 - 0 / sigma ^ 2)) by (unfold Rdiv; ring).
  rewrite (Hpow (1 - 2 * 0 / sigma ^ 2)) by (unfold Rdiv; ring).
  split; reflexivity.
Qed.

Lemma analytical_downOut_py_zero_rate_witness :
  analytical_downOut_py 100 110 2 (1 / 5) 0 90
  = Spec.down_and_out_call 100 110 2 (1 / 5) 0 90.
Proof.
  apply (analytical_downOut_py_zero_rate 100 110 2 (1 / 5) 90).
  unfold Spec.valid_inputs. lra.
Defined.

End AnalyticFurther.

(** ** The Monte Carlo pricers: scaling, bounds and monotonicity *)

Section MonteCarloFurther.
Import Np Py.

Lemma last_map_scale (c : R) (l : list R) :
  last (map (Rmult c) l) 0 = c * last l 0.
Proof.
  induction l as [|x [|y l] IH]; cbn [map last].
  - ring.
  - reflexivity.
  - exact IH.
Qed.

Lemma indicator_scale (c b : R) (path : list R) :
  0 < c ->
  Spec.indicator (c * b) (map (Rmult c) path) = Spec.indicator b path.
Proof.
  intros Hc.
  assert (Hiff : Forall (fun s => s > c * b) (map (Rmult c) path)
                 <-> Forall (fun s => s > b) path).
  { rewrite Forall_map. split; intros H; (eapply Forall_impl; [|exact H]);
      simpl; intros s Hs; nra. }
  destruct (spec_indicator_cases b path) as [[H E]|[H E]];
    destruct (spec_indicator_cases (c * b) (map (Rmult c) path))
      as [[H' E']|[H' E']];
    rewrite E, E'; tauto.
Qed.

Lemma terminal_payoff_scale (c K : R) (path : list R) :
  0 <= c ->
  Spec.terminal_payoff (c * K) (map (Rmult c) path)
  = c * Spec.terminal_payoff K path.
Proof.
  intros Hc. unfold Spec.terminal_payoff. rewrite last_map_scale.
  replace (c * last path 0 - c * K) with (c * (last path 0 - K)) by ring.
  rewrite <- (RmaxRmult _ _ c Hc). f_equal. ring.
Qed.

Lemma sum_map_scale {A : Type} (c : R) (f : A -> R) (l : list A) :
  sum (map (fun x => c * f x) l) = c * sum (map f l).
Proof.
  induction l as [|x l IH]; simpl; [ring|]. rewrite IH. ring.
Qed.

Lemma sum_map_const {A : Type} (c : R) (l : list A) :
  sum (map (fun _ => c) l) = INR (length l) * c.
Proof.
  induction l as [|x l IH]; [simpl; ring|].
  cbn [map sum fold_right length]. fold (sum (map (fun _ : A => c) l)).
  rewrite IH, S_INR. ring.
Qed.

Lemma sum_map_plus_const {A : Type} (d : R) (f : A -> R) (l : list A) :
  sum (map (fun x => f x + d) l) = sum (map f l) + INR (length l) * d.
Proof.
  induction l as [|x l IH]; [simpl; ring|].
  cbn [map sum fold_right length].
  fold (sum (map (fun x => f x + d) l)). fold (sum (map f l)).
  rewrite IH, S_INR. ring.
Qed.

Lemma S_T_scale (c S r sigma dt : R) (variates : list (list R)) :
  S_T (c * S) r sigma dt variates
  = map (map (Rmult c)) (S_T S r sigma dt variates).
Proof.
  rewrite !S_T_rowwise, map_map. apply map_ext. intros row.
  rewrite map_map. apply map_ext. intros x. ring.
Qed.

Lemma price_scale (c K T r b : R) (paths : list (list R)) :
  0 < c ->
  Spec.price (c * K) T r (c * b) (map (map (Rmult c)) paths)
  = c * Spec.price K T r b paths.
Proof.
  intros Hc. unfold Spec.price. rewrite map_map, length_map.
  rewrite (map_ext _ (fun path =>
             c * (Spec.indicator b path * Spec.terminal_payoff K path))).
  - rewrite sum_map_scale. unfold Rdiv. ring.
  - intros path. rewrite indicator_scale by assumption.
    rewrite terminal_payoff_scale by lra. ring.
Qed.

Lemma inv_INR_nonneg (n : nat) : 0 <= / INR n.
Proof.
  destruct n as [|n].
  - simpl. rewrite Rinv_0. lra.
  - left. apply Rinv_0_lt_compat. apply lt_0_INR. lia.
Qed.

(** X11.  The Monte Carlo price is homogeneous of degree 1 in spot, strike
    and barrier: on the same variates, scaling the three by [c > 0]
    scales the price by [c], in both pricers. *)
Theorem monte_carlo_homogeneous (c S K T sigma r B : R) (Z : ndarray) :
  0 < c -> 0 <= T -> Spec.valid_variates Z ->
  exists p,
    monte_carlo_down_out_py S K T sigma r B Z = Price p
    /\ monte_carlo_down_out_py (c * S) (c * K) T sigma r (c * B) Z
       = Price (c * p)
    /\ Tf.monte_carlo_down_out_tf (c * S) (c * K) T sigma r (c * B) Z
       = Price (c * p).
Proof.
  intros Hc HT HZ.
  rewrite !monte_carlo_down_out_py_price, monte_carlo_down_out_tf_price
    by assumption.
  eexists. split; [reflexivity|].
  rewrite S_T_scale.
  replace (Spec.adjusted_barrier (c * B) sigma (T / INR (shape1 Z)))
    with (c * Spec.adjusted_barrier B sigma (T / INR (shape1 Z)))
    by (unfold Spec.adjusted_barrier; ring).
  rewrite price_scale by assumption. split; reflexivity.
Qed.

Lemma monte_carlo_homogeneous_witness :
  exists p,
    monte_carlo_down_out_py 100 110 2 (1 / 5) (3 / 100) 90
      (mk_ndarray 2 [[0; 1]; [1; 0]]) = Price p
    /\ monte_carlo_down_out_py (2 * 100) (2 * 110) 2 (1 / 5) (3 / 100)
         (2 * 90) (mk_ndarray 2 [[0; 1]; [1; 0]]) = Price (2 * p)
    /\ Tf.monte_carlo_down_out_tf (2 * 100) (2 * 110) 2 (1 / 5) (3 / 100)
         (2 * 90) (mk_ndarray 2 [[0; 1]; [1; 0]]) = Price (2 * p).
Proof.
  apply (monte_carlo_homogeneous 2 100 110 2 (1 / 5) (3 / 100) 90
           (mk_ndarray 2 [[0; 1]; [1; 0]]));
    [lra | lra | variates_ok].
Defined.

(** X12.  The knock-out never adds value: on the same paths the price is
    at most the discounted mean of the plain call payoff. *)
Theorem price_at_most_vanilla (S K T sigma r B : R) (Z : ndarray) :
  0 <= T -> Spec.valid_variates Z ->
  exists p,
    monte_carlo_down_out_py S K T sigma r B Z = Price p
    /\ p <= exp (- r * T)
            * (sum (map (Spec.terminal_payoff K)
                        (S_T S r sigma (T / INR (shape1 Z)) (elements Z)))
               / INR (shape0 Z)).
Proof.
  intros HT HZ. rewrite monte_carlo_down_out_py_price by assumption.
  eexists. split; [reflexivity|].
  unfold Spec.price, shape0. rewrite S_T_length.
  apply Rmult_le_compat_l; [left; apply exp_pos|].
  apply Rmult_le_compat_r; [apply inv_INR_nonneg|].
  apply sum_map_le. apply Forall_forall. intros path _.
  pose proof (indicator_range
                (Spec.adjusted_barrier B sigma (T / INR (shape1 Z))) path).
  pose proof (terminal_payoff_nonneg K path). nra.
Qed.

Lemma price_at_most_vanilla_witness :
  exists p,
    monte_carlo_down_out_py 100 110 2 (1 / 5) (3 / 100) 90
      (mk_ndarray 2 [[0; 1]; [1; 0]]) = Price p
    /\ p <= exp (- (3 / 100) * 2)
            * (sum (map (Spec.terminal_payoff 110)
                        (S_T 100 (3 / 100) (1 / 5) (2 / INR 2)
                             [[0; 1]; [1; 0]]))
               / INR 2).
Proof.
  apply (price_at_most_vanilla 100 110 2 (1 / 5) (3 / 100) 90
           (mk_ndarray 2 [[0; 1]; [1; 0]]));
    [lra | variates_ok].
Defined.

Lemma terminal_payoff_strike (K1 K2 : R) (path : list R) :
  K1 <= K2 ->
  Spec.terminal_payoff K2 path <= Spec.terminal_payoff K1 path
  /\ Spec.terminal_payoff K1 path
     <= Spec.terminal_payoff K2 path + (K2 - K1).
Proof.
  intros HK. unfold Spec.terminal_payoff, Rmax.
  destruct (Rle_dec (last path 0 - K2) 0);
    destruct (Rle_dec (last path 0 - K1) 0); lra.
Qed.

(** X13.  The price is non-increasing in the strike, and raising the
    strike by [d] lowers the price by at most the discounted [d]. *)
Theorem price_non_increasing_in_strike
    (S K1 K2 T sigma r B : R) (Z : ndarray) :
  0 <= T -> Spec.valid_variates Z -> K1 <= K2 ->
  exists p1 p2,
    monte_carlo_down_out_py S K1 T sigma r B Z = Price p1
    /\ monte_carlo_down_out_py S K2 T sigma r B Z = Price p2
    /\ p2 <= p1 <= p2 + exp (- r * T) * (K2 - K1).
Proof.
  intros HT HZ HK. rewrite !monte_carlo_down_out_py_price by assumption.
  do 2 eexists. split; [reflexivity|]. split; [reflexivity|].
  set (b := Spec.adjusted_barrier B sigma (T / INR (shape1 Z))).
  set (paths := S_T S r sigma (T / INR (shape1 Z)) (elements Z)).
  assert (Hm : 0 < INR (length paths)).
  { unfold paths. rewrite S_T_length. apply lt_0_INR.
    destruct HZ as (_ & Hm & _). exact Hm. }
  pose proof (exp_pos (- r * T)) as Hdisc.
  unfold Spec.price. split.
  - apply Rmult_le_compat_l; [lra|].
    apply Rmult_le_compat_r; [apply inv_INR_nonneg|].
    apply sum_map_le. apply Forall_forall. intros path _.
    pose proof (indicator_range b path).
    pose proof (terminal_payoff_strike K1 K2 path HK). nra.
  - assert (Hsum :
      sum (map (fun path =>
                  Spec.indicator b path * Spec.terminal_payoff K1 path) paths)
      <= sum (map (fun path =>
                     Spec.indicator b path * Spec.terminal_payoff K2 path)
                  paths)
         + INR (length paths) * (K2 - K1)).
    { rewrite <- sum_map_plus_const.
      apply sum_map_le. apply Forall_forall. intros path _.
      pose proof (indicator_range b path).
      pose proof (terminal_payoff_strike K1 K2 path HK).
      pose proof (terminal_payoff_nonneg K2 path). nra. }
    replace (exp (- r * T) * (K2 - K1))
      with (exp (- r * T)
            * (INR (length paths) * (K2 - K1) / INR (length paths)))
      by (field; lra).
    rewrite <- Rmult_plus_distr_l.
    apply Rmult_le_compat_l; [lra|].
    unfold Rdiv. rewrite <- Rmult_plus_distr_r.
    apply Rmult_le_compat_r; [apply inv_INR_nonneg|exact Hsum].
Qed.

Lemma price_non_increasing_in_strike_witness :
  exists p1 p2,
    monte_carlo_down_out_py 100 110 2 (1 / 5) (3 / 100) 90
      (mk_ndarray 2 [[0; 1]; [1; 0]]) = Price p1
    /\ monte_carlo_down_out_py 100 120 2 (1 / 5) (3 / 100) 90
         (mk_ndarray 2 [[0; 1]; [1; 0]]) = Price p2
    /\ p2 <= p1 <= p2 + exp (- (3 / 100) * 2) * (120 - 110).
Proof.
  apply (price_non_increasing_in_strike 100 110 120 2 (1 / 5) (3 / 100) 90
           (mk_ndarray 2 [[0; 1]; [1; 0]]));
    [lra | variates_ok | lra].
Defined.

Lemma cumprod_rows_pos (r sigma dt : R) (row : list R) :
  Forall (fun x => 0 < x)
         (cumprod (map (fun z => exp (Spec.log_increment r sigma dt z)) row)).
Proof.
  apply cumprod_from_pos; [lra|].
  apply Forall_map. apply Forall_forall. intros z _. apply exp_pos.
Qed.

Lemma last_nonneg (q : list R) :
  Forall (fun x => 0 < x) q -> 0 <= last q 0.
Proof.
  induction 1 as [|x q Hx Hq IH]; [simpl; lra|].
  destruct q as [|y q]; [simpl; lra|exact IH].
Qed.

Lemma indicator_spot (b S1 S2 : R) (q : list R) :
  S1 <= S2 -> Forall (fun x => 0 < x) q ->
  Spec.indicator b (map (Rmult S1) q) <= Spec.indicator b (map (Rmult S2) q).
Proof.
  intros HS Hq.
  destruct (spec_indicator_cases b (map (Rmult S1) q)) as [[H1 E1]|[_ E1]];
    rewrite E1; [|apply indicator_range].
  assert (H2 : Forall (fun s => s > b) (map (Rmult S2) q)).
  { rewrite Forall_map in H1 |- *.
    rewrite Forall_forall in *. intros x Hx.
    specialize (H1 x Hx). specialize (Hq x Hx). simpl in *. nra. }
  apply spec_indicator_one_iff in H2. lra.
Qed.

Lemma terminal_payoff_spot (K S1 S2 : R) (q : list R) :
  S1 <= S2 -> Forall (fun x => 0 < x) q ->
  Spec.terminal_payoff K (map (Rmult S1) q)
  <= Spec.terminal_payoff K (map (Rmult S2) q).
Proof.
  intros HS Hq. unfold Spec.terminal_payoff. rewrite !last_map_scale.
  pose proof (last_nonneg q Hq) as Hlast.
  assert (S1 * last q 0 <= S2 * last q 0) by nra.
  unfold Rmax.
  destruct (Rle_dec (S1 * last q 0 - K) 0);
    destruct (Rle_dec (S2 * last q 0 - K) 0); lra.
Qed.

(** X14.  On the same variates the price is non-decreasing in the spot. *)
Theorem price_non_decreasing_in_spot
    (S1 S2 K T sigma r B : R) (Z : ndarray) :
  0 <= T -> Spec.valid_variates Z -> S1 <= S2 ->
  exists p1 p2,
    monte_carlo_down_out_py S1 K T sigma r B Z = Price p1
    /\ monte_carlo_down_out_py S2 K T sigma r B Z = Price p2
    /\ p1 <= p2.
Proof.
  intros HT HZ HS. rewrite !monte_carlo_down_out_py_price by assumption.
  do 2 eexists. split; [reflexivity|]. split; [reflexivity|].
  unfold Spec.price. rewrite !S_T_length, !S_T_rowwise, !map_map.
  apply Rmult_le_compat_l; [left; apply exp_pos|].
  apply Rmult_le_compat_r; [apply inv_INR_nonneg|].
  apply sum_map_le. apply Forall_forall. intros row _.
  pose proof (cumprod_rows_pos r sigma (T / INR (shape1 Z)) row) as Hq.
  set (b := Spec.adjusted_barrier B sigma (T / INR (shape1 Z))).
  set (q := cumprod _) in *.
  pose proof (indicator_spot b S1 S2 q HS Hq).
  pose proof (terminal_payoff_spot K S1 S2 q HS Hq).
  pose proof (indicator_range b (map (Rmult S1) q)).
  pose proof (terminal_payoff_nonneg K (map (Rmult S1) q)).
  pose proof (indicator_range b (map (Rmult S2) q)).
  nra.
Qed.

Lemma price_non_decreasing_in_spot_witness :
  exists p1 p2,
    monte_carlo_down_out_py 100 110 2 (1 / 5) (3 / 100) 90
      (mk_ndarray 2 [[0; 1]; [1; 0]]) = Price p1
    /\ monte_carlo_down_out_py 105 110 2 (1 / 5) (3 / 100) 90
         (mk_ndarray 2 [[0; 1]; [1; 0]]) = Price p2
    /\ p1 <= p2.
Proof.
  apply (price_non_decreasing_in_spot 100 105 110 2 (1 / 5) (3 / 100) 90
           (mk_ndarray 2 [[0; 1]; [1; 0]]));
    [lra | variates_ok | lra].
Defined.

Lemma cumprod_from_ones {A : Type} (acc : R) (l : list A) :
  cumprod_from acc (map (fun _ => 1) l) = map (fun _ => acc) l.
Proof.
  induction l as [|x l IH]; simpl; [reflexivity|].
  rewrite Rmult_1_r. now rewrite IH.
Qed.

(** At a zero time step every path stays at the spot. *)
Lemma S_T_zero_step (S r sigma : R) (variates : list (list R)) :
  S_T S r sigma 0 variates = map (map (fun _ => S)) variates.
Proof.
  rewrite S_T_rowwise. apply map_ext. intros row.
  rewrite (map_ext (fun z => exp (Spec.log_increment r sigma 0 z))
             (fun _ => 1)).
  - unfold cumprod. rewrite cumprod_from_ones, map_map.
    apply map_ext. intros _. ring.
  - intros z. unfold Spec.log_increment. rewrite sqrt_0.
    replace ((r - sigma ^ 2 / 2) * 0 + sigma * 0 * z) with 0 by ring.
    apply exp_0.
Qed.

Lemma constant_path_indicator {A : Type} (b S : R) (row : list A) :
  row <> [] ->
  Spec.indicator b (map (fun _ => S) row) = if Rgt_dec S b then 1 else 0.
Proof.
  intros Hne.
  assert (Hiff : Forall (fun s => s > b) (map (fun _ => S) row) <-> S > b).
  { rewrite Forall_map. split.
    - destruct row as [|x row]; [congruence|]. intros H. now inversion H.
    - intros HS. apply Forall_forall. intros; exact HS. }
  destruct (spec_indicator_cases b (map (fun _ => S) row)) as [[H E]|[H E]];
    rewrite E; destruct (Rgt_dec S b); tauto.
Qed.

Lemma constant_path_last {A : Type} (S : R) (row : list A) :
  row <> [] -> last (map (fun _ => S) row) 0 = S.
Proof.
  induction row as [|x [|y row] IH]; [congruence|reflexivity|].
  intros _. apply IH. discriminate.
Qed.

Lemma zero_expiry_price (S K sigma r B : R) (Z : ndarray) :
  Spec.valid_variates Z ->
  Spec.price K 0 r
    (Spec.adjusted_barrier B sigma (0 / INR (shape1 Z)))
    (S_T S r sigma (0 / INR (shape1 Z)) (elements Z))
  = (if Rgt_dec S B then 1 else 0) * Rmax (S - K) 0.
Proof.
  intros (Hwf & Hm & Hn).
  replace (0 / INR (shape1 Z)) with 0 by (unfold Rdiv; ring).
  rewrite S_T_zero_step.
  unfold Spec.adjusted_barrier. rewrite sqrt_0.
  replace (0.5826 * sigma * 0) with 0 by ring.
  rewrite exp_0, Rmult_1_r.
  unfold Spec.price. rewrite map_map, length_map.
  rewrite (map_ext_Forall _
             (fun _ => (if Rgt_dec S B then 1 else 0) * Rmax (S - K) 0)).
  - rewrite sum_map_const.
    replace (- r * 0) with 0 by ring. rewrite exp_0.
    unfold shape0 in Hm.
    assert (0 < INR (length (elements Z))) by (apply lt_0_INR; lia).
    field. lra.
  - eapply Forall_impl; [|exact Hwf]. simpl. intros row Hrow.
    assert (Hne : row <> []) by (intros ->; simpl in Hrow; lia).
    unfold Spec.terminal_payoff.
    now rewrite constant_path_indicator, constant_path_last.
Qed.

(** X15.  At expiry 0 the variates do not matter:
    [monte_carlo_down_out_py] returns the intrinsic value [max(S - K, 0)]
    when the spot is above the barrier and 0 otherwise. *)
Theorem zero_expiry_intrinsic_value (S K sigma r B : R) (Z : ndarray) :
  Spec.valid_variates Z -> Fp.finite (sigma ^ 2) ->
  monte_carlo_down_out_py S K 0 sigma r B Z
  = Price ((if Rgt_dec S B then 1 else 0) * Rmax (S - K) 0).
Proof.
  intros HZ _.
  rewrite monte_carlo_down_out_py_price by (try assumption; lra).
  now rewrite zero_expiry_price.
Qed.

Lemma zero_expiry_intrinsic_value_witness :
  monte_carlo_down_out_py 100 90 0 (1 / 5) (3 / 100) 95
    (mk_ndarray 2 [[0; 1]; [1; 0]])
  = Price ((if Rgt_dec 100 95 then 1 else 0) * Rmax (100 - 90) 0).
Proof.
  apply (zero_expiry_intrinsic_value 100 90 (1 / 5) (3 / 100) 95
           (mk_ndarray 2 [[0; 1]; [1; 0]]));
    [variates_ok | apply finite_small; simpl; lra].
Defined.

Lemma sum_app (u v : list R) : sum (u ++ v) = sum u + sum v.
Proof.
  induction u as [|x u IH]; simpl; [ring|].
  fold (sum (u ++ v)). fold (sum u). rewrite IH. ring.
Qed.

(** X16.  Pricing in batches: the price on the concatenation of two
    variate matrices of one column count is the mean of the two prices
    weighted by their path counts. *)
Theorem price_of_concatenated_batches
    (S K T sigma r B : R) (Z1 Z2 : ndarray) :
  0 <= T -> Spec.valid_variates Z1 -> Spec.valid_variates Z2 ->
  shape1 Z1 = shape1 Z2 ->
  exists p1 p2,
    monte_carlo_down_out_py S K T sigma r B Z1 = Price p1
    /\ monte_carlo_down_out_py S K T sigma r B Z2 = Price p2
    /\ monte_carlo_down_out_py S K T sigma r B
         (mk_ndarray (shape1 Z1) (elements Z1 ++ elements Z2))
       = Price ((INR (shape0 Z1) * p1 + INR (shape0 Z2) * p2)
                / INR (shape0 Z1 + shape0 Z2)).
Proof.
  intros HT HZ1 HZ2 Hcols.
  assert (HZ : Spec.valid_variates
                 (mk_ndarray (shape1 Z1) (elements Z1 ++ elements Z2))).
  { destruct HZ1 as (Hwf1 & Hm1 & Hn1). destruct HZ2 as (Hwf2 & Hm2 & Hn2).
    unfold Spec.valid_variates, well_shaped, shape0 in *. cbn.
    repeat split.
    - apply Forall_app. split; [exact Hwf1|]. now rewrite Hcols.
    - rewrite length_app. lia.
    - exact Hn1. }
  rewrite !monte_carlo_down_out_py_price by assumption.
  do 2 eexists. split; [reflexivity|]. split; [reflexivity|].
  f_equal. cbn [shape1 elements]. rewrite <- Hcols.
  set (b := Spec.adjusted_barrier B sigma (T / INR (shape1 Z1))).
  unfold Spec.price, shape0.
  rewrite !S_T_rowwise, !map_map, !length_map, map_app, sum_app, length_app.
  rewrite plus_INR.
  destruct HZ1 as (_ & Hm1 & _). destruct HZ2 as (_ & Hm2 & _).
  unfold shape0 in Hm1, Hm2.
  assert (0 < INR (length (elements Z1))) by (apply lt_0_INR; lia).
  assert (0 < INR (length (elements Z2))) by (apply lt_0_INR; lia).
  field. lra.
Qed.

Lemma price_of_concatenated_batches_witness :
  exists p1 p2,
    monte_carlo_down_out_py 100 110 2 (1 / 5) (3 / 100) 90
      (mk_ndarray 2 [[0; 1]]) = Price p1
    /\ monte_carlo_down_out_py 100 110 2 (1 / 5) (3 / 100) 90
         (mk_ndarray 2 [[1; 0]; [1; 1]]) = Price p2
    /\ monte_carlo_down_out_py 100 110 2 (1 / 5) (3 / 100) 90
         (mk_ndarray 2 ([[0; 1]] ++ [[1; 0]; [1; 1]]))
       = Price ((INR 1 * p1 + INR 2 * p2) / INR (1 + 2)).
Proof.
  apply (price_of_concatenated_batches 100 110 2 (1 / 5) (3 / 100) 90
           (mk_ndarray 2 [[0; 1]]) (mk_ndarray 2 [[1; 0]; [1; 1]]));
    [lra | variates_ok | variates_ok | reflexivity].
Defined.

(** X17.  For a non-negative time step the path matrix has the shape of
    the variate matrix, and with a positive spot no simulated price is
    zero or negative. *)
Theorem path_matrix_shape_and_sign (S r sigma dt : R) (Z : ndarray) :
  well_shaped Z -> 0 < S -> 0 <= dt ->
  let paths := S_T S r sigma dt (elements Z) in
  length paths = shape0 Z
  /\ Forall (fun path => length path = shape1 Z) paths
  /\ Forall (Forall (fun s => 0 < s)) paths.
Proof.
  intros Hwf HS _ paths. repeat split.
  - apply S_T_length.
  - unfold paths. rewrite S_T_rowwise. apply Forall_map.
    eapply Forall_impl; [|exact Hwf]. simpl. intros row Hrow.
    unfold cumprod. now rewrite length_map, cumprod_from_length, length_map.
  - now apply S_T_pos.
Qed.

Lemma path_matrix_shape_and_sign_witness :
  let paths := S_T 100 (3 / 100) (1 / 5) 1 [[0; 1]; [1; 0]] in
  length paths = 2%nat
  /\ Forall (fun path => length path = 2%nat) paths
  /\ Forall (Forall (fun s => 0 < s)) paths.
Proof.
  apply (path_matrix_shape_and_sign 100 (3 / 100) (1 / 5) 1
           (mk_ndarray 2 [[0; 1]; [1; 0]]));
    [repeat constructor | lra | lra].
Defined.

End MonteCarloFurther.

(** ** The expiry sensitivity of a one-step path *)

Section ExpirySensitivity.
Import Np Py.

(** A function that is derivable and positive at a point is positive
    near the point. *)
Lemma positive_near (f : R -> R) (x l : R) :
  derivable_pt_lim f x l -> 0 < f x ->
  exists d, 0 < d /\ forall t, Rabs (t - x) < d -> 0 < f t.
Proof.
  intros Hder Hpos.
  pose proof (derivable_continuous_pt f x (exist _ l Hder)) as Hcont.
  destruct (Hcont (f x) Hpos) as (alp & Halp & Hnear).
  exists alp. split; [exact Halp|]. intros t Ht.
  destruct (Req_dec x t) as [<-|Hne]; [exact Hpos|].
  specialize (Hnear t).
  assert (Hdist : Rabs (f t - f x) < f x).
  { apply Hnear. split; [split; [exact I|exact Hne]|exact Ht]. }
  apply Rabs_def2 in Hdist. lra.
Qed.

Lemma derivable_pt_lim_exp_sqrt (a c x : R) :
  0 < x ->
  derivable_pt_lim (fun t => exp (a * t + c * sqrt t)) x
    (exp (a * x + c * sqrt x) * (a * 1 + c * / (2 * sqrt x))).
Proof.
  intros Hx.
  apply (derivable_pt_lim_comp
           (mult_real_fct a id + mult_real_fct c sqrt)%F exp x).
  - apply derivable_pt_lim_plus.
    + apply derivable_pt_lim_scal. apply derivable_pt_lim_id.
    + apply derivable_pt_lim_scal. now apply derivable_pt_lim_sqrt.
  - apply derivable_pt_lim_exp.
Qed.

(** The grid-point price of a one-step path as a function of the expiry. *)
Lemma derivable_pt_lim_one_step (S r sigma z T : R) :
  0 < T ->
  derivable_pt_lim
    (fun t => S * exp ((r - sigma ^ 2 / 2) * t + sigma * sqrt t * z)) T
    (S * exp ((r - sigma ^ 2 / 2) * T + sigma * sqrt T * z)
     * ((r - sigma ^ 2 / 2) + sigma * z / (2 * sqrt T))).
Proof.
  intros HT.
  apply (derivable_pt_lim_local _
           (mult_real_fct S
              (fun t => exp ((r - sigma ^ 2 / 2) * t + sigma * z * sqrt t)))
           _ _ 1); [lra | |].
  - intros t _. unfold mult_real_fct. do 2 f_equal. ring.
  - replace (S * exp ((r - sigma ^ 2 / 2) * T + sigma * sqrt T * z)
             * ((r - sigma ^ 2 / 2) + sigma * z / (2 * sqrt T)))
      with (S * (exp ((r - sigma ^ 2 / 2) * T + sigma * z * sqrt T)
                 * ((r - sigma ^ 2 / 2) * 1
                    + sigma * z * / (2 * sqrt T)))).
    + apply derivable_pt_lim_scal. now apply derivable_pt_lim_exp_sqrt.
    + replace (sigma * z * sqrt T) with (sigma * sqrt T * z) by ring.
      unfold Rdiv. ring.
Qed.

Lemma derivable_pt_lim_shifted_barrier (B sigma T : R) :
  0 < T ->
  derivable_pt_lim (fun t => B * exp (0.5826 * sigma * sqrt t)) T
    (B * (exp (0 * T + 0.5826 * sigma * sqrt T)
          * (0 * 1 + 0.5826 * sigma * / (2 * sqrt T)))).
Proof.
  intros HT.
  apply (derivable_pt_lim_local _
           (mult_real_fct B
              (fun t => exp (0 * t + 0.5826 * sigma * sqrt t)))
           _ _ 1); [lra | |].
  - intros t _. unfold mult_real_fct. do 2 f_equal. ring.
  - apply derivable_pt_lim_scal. now apply derivable_pt_lim_exp_sqrt.
Qed.

(** One path of one step: while the grid-point price is above the strike
    and above the shifted barrier, the price is the discounted payoff of
    that path. *)
Lemma one_step_price (S K sigma r B z t : R) :
  0 <= t ->
  K < S * exp ((r - sigma ^ 2 / 2) * t + sigma * sqrt t * z) ->
  B * exp (0.5826 * sigma * sqrt t)
  < S * exp ((r - sigma ^ 2 / 2) * t + sigma * sqrt t * z) ->
  Tf.monte_carlo_down_out_tf S K t sigma r B (mk_ndarray 1 [[z]])
  = Price (exp (- r * t)
           * (S * exp ((r - sigma ^ 2 / 2) * t + sigma * sqrt t * z) - K)).
Proof.
  intros Ht HK HB.
  rewrite monte_carlo_down_out_tf_price; [|exact Ht|variates_ok].
  f_equal. unfold Spec.price. cbn [shape1 elements].
  rewrite S_T_rowwise.
  cbn [map cumprod cumprod_from sum fold_right length INR].
  unfold Spec.log_increment, Spec.terminal_payoff, Spec.adjusted_barrier.
  cbn [last].
  replace (t / 1) with t by field.
  set (x := exp ((r - sigma ^ 2 / 2) * t + sigma * sqrt t * z)) in *.
  assert (Hind : Spec.indicator (B * exp (0.5826 * sigma * sqrt t))
                   [S * (1 * x)] = 1).
  { apply spec_indicator_one_iff. constructor; [lra|constructor]. }
  rewrite Hind, Rmax_left by lra. field.
Qed.

(** X6.  One path of one step with variate [z], at an expiry [T > 0]
    where the grid-point price [x] is above the strike and the shifted
    barrier.  The price returned by the pricer of
    [monte_carlo_down_out_tf] has the derivative
    [-r price + exp(-rT) x ((r - sigma^2/2) + sigma z / (2 sqrt T))] in
    the expiry, while the partial derivative of the price node in the
    placeholder [T], the fifth greek, is [-r price]: the greek leaves out
    the dependence of the path on the expiry. *)
Theorem expiry_sensitivity_one_step (S K T sigma r B z : R) :
  0 < T ->
  K < S * exp ((r - sigma ^ 2 / 2) * T + sigma * sqrt T * z) ->
  B * exp (0.5826 * sigma * sqrt T)
  < S * exp ((r - sigma ^ 2 / 2) * T + sigma * sqrt T * z) ->
  let x := S * exp ((r - sigma ^ 2 / 2) * T + sigma * sqrt T * z) in
  let price t :=
    price_of (Tf.monte_carlo_down_out_tf S K t sigma r B
                (mk_ndarray 1 [[z]])) in
  let fd := {| Tf.fd_S := S; Tf.fd_K := K; Tf.fd_dt := T / INR 1;
               Tf.fd_T := T; Tf.fd_sigma := sigma; Tf.fd_r := r;
               Tf.fd_B := B; Tf.fd_dw := [[z]] |} in
  derivable_pt_lim price T
    (- r * price T
     + exp (- r * T) * x
       * ((r - sigma ^ 2 / 2) + sigma * z / (2 * sqrt T)))
  /\ derivable_pt_lim (fun t => Tf.npv_value (Tf.with_T fd t)) T
                      (- r * price T).
Proof.
  intros HT HK HB x price fd.
  pose proof (one_step_price S K sigma r B z T ltac:(lra) HK HB) as HpT.
  assert (EpT : price T = exp (- r * T) * (x - K))
    by (unfold price; now rewrite HpT).
  rewrite EpT. split.
  - pose proof (derivable_pt_lim_one_step S r sigma z T HT) as Dx.
    pose proof (derivable_pt_lim_shifted_barrier B sigma T HT) as Db.
    destruct (positive_near
                (fun t => S * exp ((r - sigma ^ 2 / 2) * t
                                   + sigma * sqrt t * z) - K) T _
                (derivable_pt_lim_minus _ (fct_cte K) _ _ _ Dx
                   (derivable_pt_lim_const K T)))
      as (d1 & Hd1 & Hstrike); [lra|].
    destruct (positive_near
                (fun t => S * exp ((r - sigma ^ 2 / 2) * t
                                   + sigma * sqrt t * z)
                          - B * exp (0.5826 * sigma * sqrt t)) T _
                (derivable_pt_lim_minus _ _ _ _ _ Dx Db))
      as (d2 & Hd2 & Hbarrier); [lra|].
    apply (derivable_pt_lim_local _
             (mult_fct
                (fun t => 1 * exp (- r * t))
                (minus_fct
                   (fun t => S * exp ((r - sigma ^ 2 / 2) * t
                                      + sigma * sqrt t * z))
                   (fct_cte K)))
             _ _ (Rmin T (Rmin d1 d2))).
    + repeat apply Rmin_pos; assumption.
    + intros t Hnear.
      assert (Ht : Rabs (t - T) < T)
        by (eapply Rlt_le_trans; [exact Hnear|apply Rmin_l]).
      assert (Ht1 : Rabs (t - T) < d1).
      { eapply Rlt_le_trans; [exact Hnear|].
        eapply Rle_trans; [apply Rmin_r|apply Rmin_l]. }
      assert (Ht2 : Rabs (t - T) < d2).
      { eapply Rlt_le_trans; [exact Hnear|].
        eapply Rle_trans; [apply Rmin_r|apply Rmin_r]. }
      apply Rabs_def2 in Ht.
      specialize (Hstrike t Ht1). specialize (Hbarrier t Ht2).
      unfold price. rewrite one_step_price by lra.
      unfold mult_fct, minus_fct, fct_cte. cbn [price_of]. ring.
    + replace (- r * (exp (- r * T) * (x - K))
               + exp (- r * T) * x
                 * ((r - sigma ^ 2 / 2) + sigma * z / (2 * sqrt T)))
        with (1 * (exp (- r * T) * (- r * 1)) * (x - K)
              + 1 * exp (- r * T)
                * (x * ((r - sigma ^ 2 / 2) + sigma * z / (2 * sqrt T)) - 0))
        by ring.
      apply (derivable_pt_lim_mult
               (fun t => 1 * exp (- r * t))
               (minus_fct
                  (fun t => S * exp ((r - sigma ^ 2 / 2) * t
                                     + sigma * sqrt t * z))
                  (fct_cte K))).
      * apply derivable_pt_lim_scaled_exp.
      * apply derivable_pt_lim_minus;
          [exact Dx|apply derivable_pt_lim_const].
  - unfold Tf.monte_carlo_down_out_tf in HpT.
    cbn [shape1 elements] in HpT. fold fd in HpT.
    destruct (Tf.monte_carlo_down_out_tf_npv fd) as [v|] eqn:Hv;
      [|discriminate].
    injection HpT as ->.
    apply (npv_derivative_in_T fd _ Hv).
Qed.

Lemma expiry_sensitivity_one_step_witness :
  let x := 2 * exp ((0 - 1 ^ 2 / 2) * 1 + 1 * sqrt 1 * 0) in
  let price t :=
    price_of (Tf.monte_carlo_down_out_tf 2 (1 / 10) t 1 0 (1 / 100)
                (mk_ndarray 1 [[0]])) in
  derivable_pt_lim price 1
    (- 0 * price 1
     + exp (- 0 * 1) * x * ((0 - 1 ^ 2 / 2) + 1 * 0 / (2 * sqrt 1))).
Proof.
  assert (Hx : 2 / 3 < 2 * exp ((0 - 1 ^ 2 / 2) * 1 + 1 * sqrt 1 * 0)).
  { pose proof exp_minus_1_lower as Hlow.
    assert (exp (- 1) < exp ((0 - 1 ^ 2 / 2) * 1 + 1 * sqrt 1 * 0))
      by (apply exp_increasing; rewrite sqrt_1; lra).
    lra. }
  apply (expiry_sensitivity_one_step 2 (1 / 10) 1 1 0 (1 / 100) 0);
    [lra | lra |].
  rewrite sqrt_1.
  assert (exp (0.5826 * 1 * 1) < exp (1 + 1)) by (apply exp_increasing; lra).
  rewrite exp_plus in H.
  pose proof exp_le_3 as H3. pose proof (exp_pos 1) as H1.
  rewrite sqrt_1 in Hx. nra.
Defined.

End ExpirySensitivity.

(** ** Zero volatility *)

Section ZeroVolatility.
Import Np Py.

(** With volatility 0 every path is the same deterministic growth of the
    spot, whatever the variates. *)
Lemma S_T_zero_volatility (S r dt : R) (n : nat) (variates : list (list R)) :
  Forall (fun row => length row = n) variates ->
  S_T S r 0 dt variates
  = repeat (map (Rmult S)
                (cumprod (repeat (exp (Spec.log_increment r 0 dt 0)) n)))
           (length variates).
Proof.
  intros Hrows. rewrite S_T_rowwise.
  induction Hrows as [|row rest Hrow _ IH]; [reflexivity|].
  cbn [map length repeat]. rewrite IH. f_equal. do 2 f_equal.
  rewrite <- Hrow, <- map_const. apply map_ext. intros z.
  f_equal. unfold Spec.log_increment. ring.
Qed.

(** X18.  With volatility 0 the result does not depend on the variates:
    two well-shaped variate matrices of one shape give the same outcome. *)
Theorem zero_volatility_ignores_variates
    (S K T r B : R) (Z Z' : ndarray) :
  well_shaped Z -> well_shaped Z' ->
  shape0 Z = shape0 Z' -> shape1 Z = shape1 Z' ->
  monte_carlo_down_out_py S K T 0 r B Z
  = monte_carlo_down_out_py S K T 0 r B Z'
  /\ Tf.monte_carlo_down_out_tf S K T 0 r B Z
     = Tf.monte_carlo_down_out_tf S K T 0 r B Z'.
Proof.
  intros Hwf Hwf' Hrows Hcols.
  assert (E : monte_carlo_down_out_py S K T 0 r B Z
              = monte_carlo_down_out_py S K T 0 r B Z').
  { unfold monte_carlo_down_out_py. cbv zeta. rewrite <- Hcols.
    rewrite (S_T_zero_volatility S r _ (shape1 Z) (elements Z) Hwf).
    rewrite (S_T_zero_volatility S r _ (shape1 Z) (elements Z'))
      by (unfold well_shaped in Hwf'; now rewrite Hcols).
    unfold shape0 in Hrows. now rewrite Hrows. }
  split; [exact E|].
  now rewrite !tf_pricer_agrees_with_py_all.
Qed.

Lemma zero_volatility_ignores_variates_witness :
  monte_carlo_down_out_py 100 110 2 0 (3 / 100) 90
    (mk_ndarray 2 [[0; 1]; [1; 0]])
  = monte_carlo_down_out_py 100 110 2 0 (3 / 100) 90
      (mk_ndarray 2 [[5; 2]; [3; 4]]).
Proof.
  apply (zero_volatility_ignores_variates 100 110 2 (3 / 100) 90
           (mk_ndarray 2 [[0; 1]; [1; 0]]) (mk_ndarray 2 [[5; 2]; [3; 4]]));
    [repeat constructor | repeat constructor | reflexivity | reflexivity].
Defined.

End ZeroVolatility.

(** ** A fetched gradient with a value *)

Section StrikeGradient.
Import Np.


End StrikeGradient.

(** ** A knocked-out path whose payoff overflows *)

Section Overflow.
Import Np Py.

Lemma exp_INR (n : nat) : exp (INR n) = exp 1 ^ n.
Proof.
  induction n as [|n IH]; [simpl; apply exp_0|].
  rewrite S_INR, exp_plus, IH. simpl. ring.
Qed.

Lemma exp_1_lower : 9 / 4 <= exp 1.
Proof.
  pose proof (exp_ineq1 (1 / 2) ltac:(lra)) as Hhalf.
  replace 1 with (1 / 2 + 1 / 2) at 1 by field. rewrite exp_plus. nra.
Qed.

Lemma max_float_below : Fp.max_float < 2 ^ 1024.
Proof.
  unfold Fp.max_float.
  assert (H52 : 0 < / 2 ^ 52) by (apply Rinv_0_lt_compat, pow_lt; lra).
  assert (Hp : 0 < 2 ^ 1023) by (apply pow_lt; lra).
  change (2 ^ 1024) with (2 * 2 ^ 1023). nra.
Qed.

(** [exp 989] is beyond the range of binary64. *)
Lemma exp_989_overflows : 2 * Fp.max_float < exp 989.
Proof.
  replace 989 with (INR 989) by (rewrite INR_IZR_INZ; reflexivity).
  rewrite exp_INR.
  assert (H1 : (9 / 4) ^ 989 <= exp 1 ^ 989)
    by (apply pow_incr; pose proof exp_1_lower; lra).
  assert (H2 : (9 / 4) ^ (6 * 164) <= (9 / 4) ^ 989)
    by (apply Rle_pow; [lra|lia]).
  rewrite pow_mult in H2.
  assert (H3 : (2 ^ 7) ^ 164 <= ((9 / 4) ^ 6) ^ 164).
  { apply pow_incr. split; [apply pow_le; lra|]. simpl. lra. }
  rewrite <- pow_mult in H3.
  assert (H4 : 2 ^ 1025 <= 2 ^ (7 * 164)) by (apply Rle_pow; [lra|lia]).
  pose proof max_float_below as Hmax.
  change (2 ^ 1025) with (2 * 2 ^ 1024) in H4. lra.
Qed.

(** C7 (the code departs from the claim).  Valid inputs S = 100, K = 110,
    T = 2, sigma = 1, r = 0, B = 90 and the one path with variates -10
    and 1000: the path is knocked out at its first grid point, and its
    terminal price exceeds the strike by more than the largest binary64
    number, so that the payoff is infinite and the product of indicator
    and payoff, [0 * inf], is NaN where the claim has exactly 0. *)
Theorem knocked_out_path_with_overflow :
  let Z := mk_ndarray 2 [[- 10; 1000]] in
  let paths := S_T 100 0 1 (2 / INR 2) (elements Z) in
  let B' := 90 * exp (0.5826 * 1 * sqrt (2 / INR 2)) in
  Spec.valid_inputs 100 110 2 1 90
  /\ Spec.valid_variates Z
  /\ Forall (fun path => Exists (fun s => s <= B') path) paths
  /\ Forall (fun path => Fp.max_float < last path 0 - 110) paths.
Proof.
  intros Z paths B'.
  assert (Hdt : 2 / INR 2 = 1) by (simpl; field).
  split; [unfold Spec.valid_inputs; lra|].
  split; [variates_ok|].
  unfold paths, B', Z. cbn [elements]. rewrite Hdt, sqrt_1, S_T_rowwise.
  unfold Spec.log_increment. cbn [map cumprod cumprod_from].
  rewrite sqrt_1.
  replace ((0 - 1 ^ 2 / 2) * 1 + 1 * 1 * - 10) with (- (21 / 2)) by field.
  replace ((0 - 1 ^ 2 / 2) * 1 + 1 * 1 * 1000) with (1999 / 2) by field.
  replace (1 * exp (- (21 / 2)) * exp (1999 / 2)) with (exp 989)
    by (rewrite Rmult_1_l, <- exp_plus; f_equal; field).
  pose proof exp_989_overflows as Hbig.
  pose proof max_float_large as Hmax.
  assert (Hf1 : exp (- (21 / 2)) < 1 / 2).
  { pose proof (exp_increasing (- (21 / 2)) (- 1) ltac:(lra)) as H.
    pose proof exp_1_lower as He. pose proof (exp_pos (- 1)) as Hm.
    assert (Hprod : exp (- 1) * exp 1 = 1).
    { rewrite <- exp_plus. replace (- 1 + 1) with 0 by ring. apply exp_0. }
    nra. }
  assert (Hsh : 1 < exp (0.5826 * 1 * 1)).
  { pose proof (exp_increasing 0 (0.5826 * 1 * 1) ltac:(lra)) as H.
    now rewrite exp_0 in H. }
  pose proof (exp_pos (- (21 / 2))) as Hpos.
  split; (constructor; [|constructor]).
  - apply Exists_cons_hd. nra.
  - cbn [last]. nra.
Qed.

End Overflow.
